(** * Metric ingestion and aggregation service (main.go)

    A shallow embedding of the Go program: the name validator, the line
    parser, the aggregation store, the per-connection handler, the
    scheduler loop and the counting semaphore that bounds connections.

    Conventions.
    - A Go [string] / [[]byte] is a Rocq [string] (a sequence of bytes).
    - A Go [int] is a [Z] wrapped to 64 bits, a [rune] is a [Z].
    - A Go [float64] is a primitive binary64 [float].
    - A [time.Time] is an instant, a [Z] count of nanoseconds.
    - The map [map[string]metric] is a [gmap string metric]. *)

From Stdlib Require Import ZArith Floats Ascii String List Lia Bool.
From stdpp Require Import base strings gmap list.

Local Open Scope Z_scope.

(** ** Bytes and strings *)

Module GoString.

Definition byte_of (c : ascii) : Z := Z.of_N (N_of_ascii c).

Fixpoint bytes (s : string) : list Z :=
  match s with
  | EmptyString => []
  | String c t => byte_of c :: bytes t
  end.

(** [len(s)]: the number of bytes. *)
Definition len (s : string) : Z := Z.of_nat (String.length s).

Definition char_tab : ascii := ascii_of_nat 9.
Definition char_lf : ascii := ascii_of_nat 10.
Definition char_cr : ascii := ascii_of_nat 13.

Definition tab : string := String char_tab EmptyString.
Definition newline : string := String char_lf EmptyString.

End GoString.
Export GoString.

(** ** UTF-8 decoding as done by [for i, r := range str] *)

Module Utf8.

Definition RuneSelf : Z := 0x80.
Definition runeError : Z := 0xFFFD.
Definition maxRune : Z := 0x10FFFF.
Definition surrogateMin : Z := 0xD800.
Definition surrogateMax : Z := 0xDFFF.

Definition t2 : Z := 0xC0.
Definition t3 : Z := 0xE0.
Definition t4 : Z := 0xF0.
Definition t5 : Z := 0xF8.
Definition maskx : Z := 0x3F.
Definition mask2 : Z := 0x1F.
Definition mask3 : Z := 0x0F.
Definition mask4 : Z := 0x07.
Definition rune1Max : Z := 0x7F.
Definition rune2Max : Z := 0x7FF.
Definition rune3Max : Z := 0xFFFF.
Definition locb : Z := 0x80.
Definition hicb : Z := 0xBF.

Definition cont (b : Z) : bool := (locb <=? b) && (b <=? hicb).

(** [decoderune(s, k)] of the Go runtime, on the suffix [s[k:]]: the rune
    and the number of bytes it takes; a malformed sequence is
    [runeError] of width 1. *)
Definition decoderune (s : list Z) : Z * Z :=
  match s with
  | [] => (runeError, 1)
  | s0 :: rest =>
    if (t2 <=? s0) && (s0 <? t3) then
      match rest with
      | s1 :: _ =>
        if cont s1 then
          let r := Z.lor (Z.shiftl (Z.land s0 mask2) 6) (Z.land s1 maskx) in
          if rune1Max <? r then (r, 2) else (runeError, 1)
        else (runeError, 1)
      | _ => (runeError, 1)
      end
    else if (t3 <=? s0) && (s0 <? t4) then
      match rest with
      | s1 :: s2 :: _ =>
        if cont s1 && cont s2 then
          let r := Z.lor (Z.lor (Z.shiftl (Z.land s0 mask3) 12)
                                (Z.shiftl (Z.land s1 maskx) 6))
                         (Z.land s2 maskx) in
          if (rune2Max <? r) && negb ((surrogateMin <=? r) && (r <=? surrogateMax))
          then (r, 3) else (runeError, 1)
        else (runeError, 1)
      | _ => (runeError, 1)
      end
    else if (t4 <=? s0) && (s0 <? t5) then
      match rest with
      | s1 :: s2 :: s3 :: _ =>
        if cont s1 && cont s2 && cont s3 then
          let r := Z.lor (Z.lor (Z.lor (Z.shiftl (Z.land s0 mask4) 18)
                                       (Z.shiftl (Z.land s1 maskx) 12))
                                (Z.shiftl (Z.land s2 maskx) 6))
                         (Z.land s3 maskx) in
          if (rune3Max <? r) && (r <=? maxRune) then (r, 4) else (runeError, 1)
        else (runeError, 1)
      | _ => (runeError, 1)
      end
    else (runeError, 1)
  end.

(** The pairs [(i, r)] a [range] loop over the bytes [s] visits, [i] the
    byte offset of the rune [r].  [skip] counts the continuation bytes of
    the rune decoded last that are still to be passed over. *)
Fixpoint range_from (i : Z) (skip : nat) (s : list Z) : list (Z * Z) :=
  match s with
  | [] => []
  | b :: t =>
    match skip with
    | S k => range_from (i + 1) k t
    | O =>
      if b <? RuneSelf then (i, b) :: range_from (i + 1) 0 t
      else
        let '(r, w) := decoderune s in
        (i, r) :: range_from (i + 1) (Z.to_nat (w - 1)) t
    end
  end.

Definition range_string (s : string) : list (Z * Z) :=
  range_from 0 0 (bytes s).

(** The runes of a string, and their number ([utf8.RuneCountInString]). *)
Definition runes (s : string) : list Z := (range_string s).*2.
Definition rune_count (s : string) : Z := Z.of_nat (length (range_string s)).

End Utf8.
Export Utf8.

(** ** Name validation *)

Definition is_digit (r : Z) : bool := (48 <=? r) && (r <=? 57).
Definition is_upper (r : Z) : bool := (65 <=? r) && (r <=? 90).
Definition is_lower (r : Z) : bool := (97 <=? r) && (r <=? 122).
Definition hyphen : Z := 45.

(** The body of the loop of [validateName] over the pairs of the range:
    [false] at the first offending rune. *)
Fixpoint validate_runes (l : list (Z * Z)) : bool :=
  match l with
  | [] => true
  | (i, r) :: l' =>
    if (i =? 0) && (r =? hyphen) then false
    else if negb (is_digit r) && negb (is_upper r) && negb (is_lower r)
            && negb (r =? hyphen)
    then false
    else validate_runes l'
  end.

(** [validateName].  (The Go function also prints a line on standard
    output when the name is too long; only its result is modelled.) *)
Definition validateName (str : string) : bool :=
  if 64 <? len str then false
  else validate_runes (range_string str).

(** What the specification asks of a name: between 1 and 64 characters
    (code points), the first alphanumeric, the others alphanumeric or a
    hyphen. *)
Definition alnum (r : Z) : bool := is_digit r || is_upper r || is_lower r.
Definition name_char (r : Z) : bool := alnum r || (r =? hyphen).

Definition matches_name_pattern (rs : list Z) : bool :=
  match rs with
  | [] => false
  | r :: rest => alnum r && forallb name_char rest
  end.

Definition spec_isValidName (s : string) : bool :=
  (1 <=? rune_count s) && (rune_count s <=? 64) && matches_name_pattern (runes s).

(** The first byte, when the loop starts at offset 0, is not a hyphen. *)
Definition first_not_hyphen (i : Z) (s : list Z) : bool :=
  match s with
  | [] => true
  | b :: _ => negb ((i =? 0) && (b =? hyphen))
  end.

(** ** Numbers and instants *)

(** A Go [int] on a 64-bit platform: two's complement wrap-around. *)
Definition int_wrap (n : Z) : Z := (n + 2 ^ 63) mod 2 ^ 64 - 2 ^ 63.

(** A [uint64]: what [atomic.AddUint64] leaves after an addition. *)
Definition uint64_wrap (n : Z) : Z := n mod 2 ^ 64.

(** The conversion [float64(n)] of an [int]: the nearest binary64 value,
    ties to even. *)
Definition float64_of_int (n : Z) : float :=
  SF2Prim (binary_normalize prec emax n 0 false).

(** A [time.Time] as an instant: nanoseconds since the Unix epoch.  A
    [time.Duration] is a count of nanoseconds as well. *)
Definition instant : Type := Z.
Definition Second : Z := 1000000000.
Definition Before (t u : instant) : bool := t <? u.
Definition After (t u : instant) : bool := u <? t.
Definition Add (t : instant) (d : Z) : instant := t + d.
(** [UTC] changes the location a time is shown in, not the instant. *)
Definition UTC (t : instant) : instant := t.

(** ** Records and the store *)

Record metric : Type := Metric {
  name : string;
  value : float;
  mean : float;
  time : instant;
  count : Z
}.

Record store : Type := Store { data : gmap string metric }.

Definition newStore : store := {| data := ∅ |}.

(** [update].  Its [error] result is always [nil], modelled by [None]. *)
Definition update (s : store) (m : metric) : store * option string :=
  let m' :=
    match data s !! name m with
    | Some cm =>
      let v := (value cm + value m)%float in
      let c := int_wrap (count cm + 1) in
      {| name := name m; value := v; mean := (v / float64_of_int c)%float;
         time := time m; count := c |}
    | None => m
    end in
  ({| data := <[name m := m']> (data s) |}, None).

(** ** Library functions used by the parser *)

(** [strings.Split(s, sep)] for a separator of one byte. *)
Fixpoint Split (s : string) (sep : ascii) : list string :=
  match s with
  | EmptyString => [EmptyString]
  | String c t =>
    if Ascii.eqb c sep then EmptyString :: Split t sep
    else
      match Split t sep with
      | h :: r => String c h :: r
      | [] => [String c EmptyString]
      end
  end.

Definition in_cutset (c : ascii) (cutset : string) : bool :=
  existsb (Ascii.eqb c) (list_ascii_of_string cutset).

(** [bytes.Trim(b, cutset)] for a cutset of ASCII bytes: the cutset bytes
    are removed at the right end, then at the left end. *)
Fixpoint TrimRight (s cutset : string) : string :=
  match s with
  | EmptyString => EmptyString
  | String c t =>
    match TrimRight t cutset with
    | EmptyString => if in_cutset c cutset then EmptyString else String c EmptyString
    | t' => String c t'
    end
  end.

Fixpoint TrimLeft (s cutset : string) : string :=
  match s with
  | EmptyString => EmptyString
  | String c t => if in_cutset c cutset then TrimLeft t cutset else s
  end.

Definition Trim (s cutset : string) : string := TrimLeft (TrimRight s cutset) cutset.

(** The cutset of the handler: carriage return and line feed. *)
Definition crlf : string := String char_cr (String char_lf EmptyString).

(** Every byte, the first byte, the last byte of a string is in a cutset. *)
Definition all_in_cutset (s cutset : string) : bool :=
  forallb (fun c => in_cutset c cutset) (list_ascii_of_string s).

Definition head_in_cutset (s cutset : string) : bool :=
  match s with
  | EmptyString => false
  | String c _ => in_cutset c cutset
  end.

Fixpoint last_in_cutset (s cutset : string) : bool :=
  match s with
  | EmptyString => false
  | String c EmptyString => in_cutset c cutset
  | String _ t => last_in_cutset t cutset
  end.


Module Strconv.

Definition lower (c : ascii) : ascii :=
  let b := byte_of c in
  if (65 <=? b) && (b <=? 90) then ascii_of_N (Z.to_N (b + 32)) else c.

(** [commonPrefixLenIgnoreCase(s, prefix)], [prefix] in lower case. *)
Fixpoint commonPrefixLenIgnoreCase (s prefix : string) : Z :=
  match s, prefix with
  | String c s', String p prefix' =>
    if Ascii.eqb (lower c) p then 1 + commonPrefixLenIgnoreCase s' prefix' else 0
  | _, _ => 0
  end.

Definition Inf (sign : Z) : float := if 0 <=? sign then infinity else neg_infinity.

Definition inf_prefix (s : string) (sign nsign : Z) : option (float * Z) :=
  let n := commonPrefixLenIgnoreCase s "infinity" in
  let n := if (3 <? n) && (n <? 8) then 3 else n in
  if (n =? 3) || (n =? 8) then Some (Inf sign, nsign + n) else None.

(** [special(s)]: the infinities and the NaN, with the number of bytes
    read. *)
Definition special (s : string) : option (float * Z) :=
  match s with
  | EmptyString => None
  | String c rest =>
    if Ascii.eqb c "+" then inf_prefix rest 1 1
    else if Ascii.eqb c "-" then inf_prefix rest (-1) 1
    else if Ascii.eqb c "i" || Ascii.eqb c "I" then inf_prefix s 1 0
    else if Ascii.eqb c "n" || Ascii.eqb c "N" then
      if commonPrefixLenIgnoreCase s "nan" =? 3 then Some (nan, 3) else None
    else None
  end.

End Strconv.

Inductive result (A E : Type) : Type :=
  | Ok (a : A)
  | Err (e : E).
Arguments Ok {A E} a.
Arguments Err {A E} e.

Inductive parse_error : Type :=
  | ErrMissingValues
  | ErrName
  | ErrValue
  | ErrTime.

(** The messages of the four [fmt.Errorf] calls. *)
Definition Error (e : parse_error) : string :=
  match e with
  | ErrMissingValues => "invalid input: missing values"
  | ErrName => "invalid input: name "
  | ErrValue => "invalid input: value not float"
  | ErrTime => "invalid input: time not iso8601"
  end.

Definition iso8601Format : string := "2006-01-02T15:04:05Z".

(** ** The connection handler *)

Inductive read_error : Type :=
  | EOF
  | ReadFailure.

(** One turn of the loop of [connHandler] as the environment decides it:
    the result of [ReadBytes], and the two readings of the clock the
    window test makes. *)
Record turn : Type := Turn {
  read_bytes : string;
  read_err : option read_error;
  now_lower : instant;
  now_upper : instant
}.

Inductive effect : Type :=
  | Log (msg : string)
  | ConnClose
  | Send (m : metric)
  | AddRawCount
  | Signal.

Inductive outcome : Type :=
  | Terminated (msg : string)
  | Dropped
  | HandedOff (m : metric).

Inductive status : Type :=
  | Returned
  | Reading.

Definition effects_of (o : outcome) : list effect :=
  match o with
  | Terminated msg => [Log msg; ConnClose]
  | Dropped => []
  | HandedOff m => [Send m; AddRawCount]
  end.

(** ** What the scheduler writes and keeps *)

(** An operand of [fmt.Fprintln], and a piece of what it writes. *)
Inductive item : Type :=
  | Str (s : string)
  | Float64 (f : float).

(** [fmt.Fprintln]: the operands with a space between each two, and a
    newline. *)
Fixpoint Fprintln (ops : list item) : list item :=
  match ops with
  | [] => [Str newline]
  | [a] => [a; Str newline]
  | a :: rest => a :: Str " " :: Fprintln rest
  end.

(** [fmt.Fprintln(os.Stdout, m.name, "\t", m.mean)]. *)
Definition metric_line (m : metric) : list item :=
  Fprintln [Str (name m); Str tab; Float64 (mean m)].

(** The bytes of what is written, given the text of a float
    ([%v] of the [fmt] package). *)
Definition render (fmt_float : float -> string) (l : list item) : string :=
  fold_right (fun i acc => match i with
                           | Str s => s +:+ acc
                           | Float64 f => fmt_float f +:+ acc
                           end) EmptyString l.

(** [case <-tickerCollection.C]: one line for each value of the map, in
    the order the iteration over the map takes (any order), and a new
    empty map. *)
Inductive tick_collection (s : store) : list (list item) -> store -> Prop :=
  | TickCollection ms :
      ms ≡ₚ (map_to_list (data s)).*2 ->
      tick_collection s (metric_line <$> ms) newStore.

(** The sum of the counts of the aggregates of a map. *)
Definition total_count (d : gmap string metric) : Z :=
  map_fold (fun _ m acc => count m + acc) 0 d.

Record sys : Type := Sys {
  sys_store : store;
  rawCount : Z;
  resetting : bool;            (* a raw tick has loaded the counter and not yet stored 0 *)
  unadded : Z;                 (* handlers between their send and their [AddUint64] *)
  stdout : list (list item);   (* lines of the flush ticks *)
  stderr : list Z;             (* counts reported by the raw ticks *)
  handed_off : Z;              (* ghost: records received from [ingress] *)
  drained : Z                  (* ghost: sum of the counts of the aggregates flushed *)
}.

Definition sys_init : sys :=
  {| sys_store := newStore; rawCount := 0; resetting := false; unadded := 0;
     stdout := []; stderr := []; handed_off := 0; drained := 0 |}.

Definition after_ingress (s : sys) (m : metric) : sys :=
  {| sys_store := fst (update (sys_store s) m); rawCount := rawCount s;
     resetting := resetting s; unadded := unadded s + 1;
     stdout := stdout s; stderr := stderr s;
     handed_off := handed_off s + 1; drained := drained s |}.

Definition after_add (s : sys) : sys :=
  {| sys_store := sys_store s; rawCount := uint64_wrap (rawCount s + 1);
     resetting := resetting s; unadded := unadded s - 1;
     stdout := stdout s; stderr := stderr s;
     handed_off := handed_off s; drained := drained s |}.

Definition after_raw_load (s : sys) : sys :=
  {| sys_store := sys_store s; rawCount := rawCount s;
     resetting := true; unadded := unadded s;
     stdout := stdout s; stderr := stderr s ++ [rawCount s];
     handed_off := handed_off s; drained := drained s |}.

Definition after_raw_store (s : sys) : sys :=
  {| sys_store := sys_store s; rawCount := 0;
     resetting := false; unadded := unadded s;
     stdout := stdout s; stderr := stderr s;
     handed_off := handed_off s; drained := drained s |}.

Definition after_collection (s : sys) (out : list (list item)) (st' : store) : sys :=
  {| sys_store := st'; rawCount := rawCount s;
     resetting := resetting s; unadded := unadded s;
     stdout := stdout s ++ out; stderr := stderr s;
     handed_off := handed_off s;
     drained := drained s + total_count (data (sys_store s)) |}.

(** The invariant of the store: every aggregate counts at least one
    record, and the records received are those counted in the store and
    those counted in the aggregates flushed. *)
Definition store_inv (s : sys) : Prop :=
  (forall k m, data (sys_store s) !! k = Some m -> 1 <= count m /\ name m = k)
  /\ total_count (data (sys_store s)) + drained s = handed_off s
  /\ 0 <= drained s.

(** ** Measures used in the statements *)

(** The number of tabs in a line. *)
Definition tab_count (line : string) : nat :=
  length (filter (fun c => c = char_tab) (list_ascii_of_string line)).

(** [update] after [update], on the records of a list in order: what the
    scheduler does with the records it receives between two flush ticks. *)
Definition fold_records (s : store) (rs : list metric) : store :=
  foldl (fun s r => (update s r).1) s rs.

(** The sum of floats as the folds compute it, from the left. *)
Definition float_sum (v : float) (vs : list float) : float :=
  foldl PrimFloat.add v vs.

Definition sum_Z (l : list Z) : Z := foldr Z.add 0 l.




(** ** The two validators of the test file and their table *)

(** [validateRune]: [validateName] without the message. *)
Definition validateRune (input : string) : bool :=
  if 64 <? len input then false
  else validate_runes (range_string input).

Module Regexp.

(** Regular expressions over runes, as far as the pattern of the test
    file needs them; a class is a list of ranges. *)
Inductive regexp : Type :=
  | Nothing
  | Empty
  | Class (ranges : list (Z * Z))
  | Cat (r1 r2 : regexp)
  | Alt (r1 r2 : regexp)
  | Star (r : regexp)
  | Plus (r : regexp).

Definition in_class (x : Z) (ranges : list (Z * Z)) : bool :=
  existsb (fun '(lo, hi) => (lo <=? x) && (x <=? hi)) ranges.

(** The expression matches the empty string. *)
Fixpoint nullable (r : regexp) : bool :=
  match r with
  | Nothing => false
  | Empty => true
  | Class _ => false
  | Cat r1 r2 => nullable r1 && nullable r2
  | Alt r1 r2 => nullable r1 || nullable r2
  | Star _ => true
  | Plus r => nullable r
  end.

(** What is left to match after the rune [x]. *)
Fixpoint deriv (x : Z) (r : regexp) : regexp :=
  match r with
  | Nothing => Nothing
  | Empty => Nothing
  | Class ranges => if in_class x ranges then Empty else Nothing
  | Cat r1 r2 =>
    Alt (Cat (deriv x r1) r2) (if nullable r1 then deriv x r2 else Nothing)
  | Alt r1 r2 => Alt (deriv x r1) (deriv x r2)
  | Star r => Cat (deriv x r) (Star r)
  | Plus r => Cat (deriv x r) (Star r)
  end.

(** Some prefix of the runes matches. *)
Fixpoint match_prefix (r : regexp) (l : list Z) : bool :=
  nullable r ||
  match l with
  | [] => false
  | x :: l' => match_prefix (deriv x r) l'
  end.

(** Some run of consecutive runes matches: [regexp.MatchString] reports
    whether the string contains any match. *)
Fixpoint match_anywhere (r : regexp) (l : list Z) : bool :=
  match_prefix r l ||
  match l with
  | [] => false
  | _ :: l' => match_anywhere r l'
  end.

Definition MatchString (r : regexp) (s : string) : bool :=
  match_anywhere r (runes s).

(** The pattern [[0-9a-zA-Z]+[0-9a-zA-Z-]*]. *)
Definition name_pattern : regexp :=
  Cat (Plus (Class [(48, 57); (97, 122); (65, 90)]))
      (Star (Class [(48, 57); (97, 122); (65, 90); (45, 45)])).

(** An expression that, by its shape, matches no string. *)
Fixpoint void (r : regexp) : bool :=
  match r with
  | Nothing => true
  | Empty => false
  | Class _ => false
  | Cat r1 _ => void r1
  | Alt r1 r2 => void r1 && void r2
  | Star _ => false
  | Plus r => void r
  end.


End Regexp.

(** [validateRegex]. *)
Definition validateRegex (input : string) : bool :=
  if 64 <? len input then false
  else Regexp.MatchString Regexp.name_pattern input.

Record testCase : Type := TestCase {
  input : string;
  expectedResult : bool
}.

Definition testCases : list testCase :=
  [ {| input := "asdf"; expectedResult := true |};
    {| input := "-asdf-asdf"; expectedResult := false |};
    {| input := "asdf asdf"; expectedResult := false |};
    {| input := "asdf-asdf-asdf-asdf-asdf"; expectedResult := true |};
    {| input := "-asdf"; expectedResult := false |};
    {| input := "!asdf"; expectedResult := false |};
    {| input := "asdfasdfasdfasdfasdfasdfasdfasdfasdfasdfasdfasdfasdfasdfasdfasdfx";
       expectedResult := false |} ].

(** The loop of [TestRune] and of [TestRegex]: the calls of [t.Errorf],
    each with the input, the result and the expected result. *)
Definition run_test (validate : string -> bool) : list (string * bool * bool) :=
  omap (fun tc =>
          let r := validate (input tc) in
          if Bool.eqb r (expectedResult tc) then None
          else Some (input tc, r, expectedResult tc)) testCases.

Definition TestRune : list (string * bool * bool) := run_test validateRune.
Definition TestRegex : list (string * bool * bool) := run_test validateRegex.

(** ** The earlier variant of the service (the second source file)

    There the handlers call [update] themselves, on a store that carries
    a read-write lock, and the window test has a lower bound only. *)

Module Earlier.

(** [update], first critical section ([RLock] to [RUnlock]) and the
    computation that follows it: the aggregate that will be written. *)
Definition update_read (s : store) (m : metric) : metric :=
  match data s !! name m with
  | Some cm =>
    let v := (value cm + value m)%float in
    let c := int_wrap (count cm + 1) in
    {| name := name m; value := v; mean := (v / float64_of_int c)%float;
       time := time m; count := c |}
  | None => m
  end.

(** [update], second critical section ([Lock] to [Unlock]): the write. *)
Definition update_write (s : store) (m : metric) : store :=
  {| data := <[name m := m]> (data s) |}.

(** [update] when nothing comes between its two critical sections. *)
Definition update (s : store) (m : metric) : store * option string :=
  (update_write s (update_read s m), None).

(** The test that makes [connHandler] skip a record. *)
Definition outside_window (t : turn) (m : metric) : bool :=
  Before (time m) (UTC (Add (now_lower t) (-60 * Second))).

(** One turn of the loop of [connHandler], given [parseMetric]; a record
    handed off is a record given to [update]. *)
Definition conn_turn (parseMetric : string -> result metric parse_error)
    (t : turn) : outcome :=
  match read_err t with
  | Some EOF => Terminated "client terminated: EOF"
  | _ =>
    match Trim (read_bytes t) crlf with
    | EmptyString => Terminated "client terminated: Empty input"
    | line =>
      match parseMetric line with
      | Err e => Terminated (Error e)
      | Ok m => if outside_window t m then Dropped else HandedOff m
      end
    end
  end.

End Earlier.


(** ** The semaphore that bounds the connections *)

Module Admission.

(** [make(semaphore, 10)] in [main]. *)
Definition capacity : Z := 10.

(** A buffered channel of [empty] values is known by the number of
    values it holds.  A send or a receive that would block is [None]. *)
Definition chan_send (cap n : Z) : option Z :=
  if n <? cap then Some (n + 1) else None.
Definition chan_recv (n : Z) : option Z :=
  if 0 <? n then Some (n - 1) else None.

(** [P(n)]: [n] sends; [V(n)]: [n] receives. *)
Fixpoint P (k : nat) (cap n : Z) : option Z :=
  match k with
  | O => Some n
  | S k' => match chan_send cap n with
            | Some n' => P k' cap n'
            | None => None
            end
  end.

Fixpoint V (k : nat) (n : Z) : option Z :=
  match k with
  | O => Some n
  | S k' => match chan_recv n with
            | Some n' => V k' n'
            | None => None
            end
  end.

Definition Wait (k : nat) (cap n : Z) : option Z := P k cap n.
Definition Signal (n : Z) : option Z := V 1 n.

(** Where the accept loop of [main] stands: before [sem.Wait(1)], or
    after it, in [l.Accept()]. *)
Inductive main_pc : Type :=
  | AtWait
  | AtAccept.

Record gate : Type := Gate {
  sem : Z;            (* values held by the channel *)
  pc : main_pc;
  handlers : Z;       (* [connHandler] goroutines that have not returned *)
  acquired : Z;       (* calls of [Wait] that have returned *)
  released : Z        (* calls of [Signal] that have returned *)
}.

Definition init : gate :=
  {| sem := 0; pc := AtWait; handlers := 0; acquired := 0; released := 0 |}.

Inductive action : Type :=
  | MainWait        (* [sem.Wait(1)] returns *)
  | AcceptOk        (* [l.Accept()] succeeds: [go connHandler(...)] *)
  | AcceptErr       (* [l.Accept()] fails: [continue] *)
  | HandlerReturn.  (* a handler returns: its deferred [s.Signal()] *)

Definition step (a : action) (g : gate) : option gate :=
  match a, pc g with
  | MainWait, AtWait =>
    match Wait 1 capacity (sem g) with
    | Some n => Some {| sem := n; pc := AtAccept; handlers := handlers g;
                        acquired := acquired g + 1; released := released g |}
    | None => None
    end
  | AcceptOk, AtAccept =>
    Some {| sem := sem g; pc := AtWait; handlers := handlers g + 1;
            acquired := acquired g; released := released g |}
  | AcceptErr, AtAccept =>
    Some {| sem := sem g; pc := AtWait; handlers := handlers g;
            acquired := acquired g; released := released g |}
  | HandlerReturn, _ =>
    if 0 <? handlers g then
      match Signal (sem g) with
      | Some n => Some {| sem := n; pc := pc g; handlers := handlers g - 1;
                          acquired := acquired g; released := released g + 1 |}
      | None => None
      end
    else None
  | _, _ => None
  end.

Fixpoint run (tr : list action) (g : gate) : option gate :=
  match tr with
  | [] => Some g
  | a :: tr' => match step a g with
                | Some g' => run tr' g'
                | None => None
                end
  end.

(** The invariant of the gate: the handlers running, and the slot the
    accept loop holds while it accepts, are among the values in the
    channel, which are at most its capacity. *)
Definition inv (g : gate) : Prop :=
  0 <= handlers g
  /\ handlers g + (match pc g with AtAccept => 1 | AtWait => 0 end) <= sem g
  /\ sem g <= capacity
  /\ acquired g - released g = sem g.

(** The gate with ten handlers running. *)
Definition full : gate :=
  {| sem := 10; pc := AtWait; handlers := 10; acquired := 10; released := 0 |}.

(** The accept loop goes ten times round, every accept succeeding. *)
Definition fill : list action :=
  concat (replicate 10 [MainWait; AcceptOk]).

(** The slot of the accept loop while it accepts. *)
Definition accepting (g : gate) : Z :=
  match pc g with AtAccept => 1 | AtWait => 0 end.

#[global] Instance action_eq_dec : EqDecision action.
Proof. solve_decision. Defined.

(** The accepts of a trace that failed. *)
Definition failed_accepts (tr : list action) : Z :=
  Z.of_nat (length (filter (fun a => a = AcceptErr) tr)).

(** The accept loop goes ten times round, every accept failing, and the
    gate it ends in. *)
Definition refuse : list action :=
  concat (replicate 10 [MainWait; AcceptErr]).

Definition jammed : gate :=
  {| sem := 10; pc := AtWait; handlers := 0; acquired := 10; released := 0 |}.


End Admission.

(** ** Results of the library on the strings the examples use *)

Module Examples.

Definition atof_number (s : string) : option float :=
  if String.eqb s "1" then Some 1%float
  else if String.eqb s "3" then Some 3%float
  else if String.eqb s "42.5" then Some 42.5%float
  else None.

(** 2021-01-01T00:00:00Z is 1609459200 seconds after the epoch. *)
Definition time_Parse (layout v : string) : option instant :=
  if String.eqb layout iso8601Format && String.eqb v "2021-01-01T00:00:00Z"
  then Some (1609459200 * Second)
  else None.

Definition cpu_line : string :=
  "cpu" +:+ tab +:+ "42.5" +:+ tab +:+ "2021-01-01T00:00:00Z".

Definition cpu : metric :=
  {| name := "cpu"; value := 42.5; mean := 42.5;
     time := 1609459200 * Second; count := 1 |}.

(** The instant of [cpu], and a turn that reads [cpu_line] with its line
    terminator when the clock shows [now]. *)
Definition cpu_time : instant := 1609459200 * Second.

Definition cpu_turn (err : option read_error) (now : instant) : turn :=
  {| read_bytes := cpu_line +:+ String char_cr newline; read_err := err;
     now_lower := now; now_upper := now |}.

(** A turn whose read fails after the bytes of [cpu_line], before any
    line terminator. *)
Definition cut_turn (err : read_error) (now : instant) : turn :=
  {| read_bytes := cpu_line; read_err := Some err;
     now_lower := now; now_upper := now |}.

(** A line whose name field is empty, and the record it parses to. *)
Definition nameless_line : string :=
  tab +:+ "1" +:+ tab +:+ "2021-01-01T00:00:00Z".

Definition nameless : metric :=
  {| name := ""; value := 1; mean := 1; time := cpu_time; count := 1 |}.

(** A store that holds [cpu] only. *)
Definition cpu_store : store := {| data := {[ "cpu" := cpu ]} |}.

End Examples.

Section Service.

(** The numeric path of [strconv.ParseFloat(s, 64)] (everything but the
    infinities and the NaN), and [time.Parse(layout, value)]: functions
    of the Go library, [None] when they return an error. *)
Variable atof_number : string -> option float.
Variable time_Parse : string -> string -> option instant.

Definition ParseFloat (s : string) : option float :=
  match Strconv.special s with
  | Some (f, n) => if n =? len s then Some f else None
  | None => atof_number s
  end.

(** [parseMetric]. *)
Definition parseMetric (line : string) : result metric parse_error :=
  match Split line char_tab with
  | [d0; d1; d2] =>
    if negb (validateName d0) then Err ErrName
    else
      match ParseFloat d1 with
      | None => Err ErrValue
      | Some v =>
        match time_Parse iso8601Format d2 with
        | None => Err ErrTime
        | Some t => Ok {| name := d0; value := v; mean := v; time := t; count := 1 |}
        end
      end
  | _ => Err ErrMissingValues
  end.

(** The test that makes [connHandler] skip a record. *)
Definition outside_window (t : turn) (m : metric) : bool :=
  Before (time m) (UTC (Add (now_lower t) (-60 * Second)))
  || After (time m) (now_upper t).

(** One turn of the loop of [connHandler]. *)
Definition conn_turn (t : turn) : outcome :=
  match read_err t with
  | Some EOF => Terminated "client terminated: EOF"
  | _ =>
    match Trim (read_bytes t) crlf with
    | EmptyString => Terminated "client terminated: Empty input"
    | line =>
      match parseMetric line with
      | Err e => Terminated (Error e)
      | Ok m => if outside_window t m then Dropped else HandedOff m
      end
    end
  end.

(** [connHandler] on the turns the environment offers: what it does,
    and whether it has returned (running the deferred [Signal]) or waits
    in [ReadBytes] for more. *)
Fixpoint connHandler (turns : list turn) : list effect * status :=
  match turns with
  | [] => ([], Reading)
  | t :: rest =>
    match conn_turn t with
    | Terminated msg => (effects_of (Terminated msg) ++ [Signal], Returned)
    | o => let '(es, st) := connHandler rest in (effects_of o ++ es, st)
    end
  end.

(** *** The scheduler and the handlers together

    The goroutine started by [main] selects among a record on
    [ingress] and its two tickers; the handlers send on [ingress] and
    then add one to [rawCount].  The steps below are the atomic
    actions of that system, in any interleaving. *)

Inductive sys_step : sys -> sys -> Prop :=
  (** [case m := <-ingress]: a handler's send meets the receive, and
      the scheduler folds the record. *)
  | step_ingress s t m :
      resetting s = false ->
      conn_turn t = HandedOff m ->
      sys_step s (after_ingress s m)
  (** [atomic.AddUint64(&rawCount, 1)] of a handler that has sent. *)
  | step_add s :
      0 < unadded s ->
      sys_step s (after_add s)
  (** [case <-tickerRaw.C], first half: [atomic.LoadUint64] and the
      report on standard error. *)
  | step_raw_load s :
      resetting s = false ->
      sys_step s (after_raw_load s)
  (** [case <-tickerRaw.C], second half: [atomic.StoreUint64(&rawCount, 0)]. *)
  | step_raw_store s :
      resetting s = true ->
      sys_step s (after_raw_store s)
  (** [case <-tickerCollection.C]. *)
  | step_collection s out st' :
      resetting s = false ->
      tick_collection (sys_store s) out st' ->
      sys_step s (after_collection s out st').

Definition reachable (s : sys) : Prop := rtc sys_step sys_init s.

(** * Properties *)

(** ** Name validation *)

Section NameValidation.

Lemma decoderune_not_ascii (s : list Z) :
  RuneSelf <= (decoderune s).1.
Proof.
  unfold decoderune, RuneSelf, runeError, rune1Max, rune2Max, rune3Max.
  repeat case_match; simpl; try lia.
  all: repeat match goal with
       | H : (_ && _) = true |- _ => apply andb_true_iff in H; destruct H
       | H : (_ <? _) = true |- _ => apply Z.ltb_lt in H
       end; lia.
Qed.

Lemma name_char_ascii (r : Z) : name_char r = true -> r < RuneSelf.
Proof.
  unfold name_char, alnum, is_digit, is_upper, is_lower, hyphen, RuneSelf.
  intros H.
  repeat match goal with
  | H : (_ || _) = true |- _ => apply orb_true_iff in H; destruct H
  | H : (_ && _) = true |- _ => apply andb_true_iff in H; destruct H
  | H : (_ <=? _) = true |- _ => apply Z.leb_le in H
  | H : (_ =? _) = true |- _ => apply Z.eqb_eq in H
  end; lia.
Qed.

Lemma name_char_high (r : Z) : RuneSelf <= r -> name_char r = false.
Proof.
  intros H. destruct (name_char r) eqn:E; [|done].
  apply name_char_ascii in E. lia.
Qed.

(** The test of the loop body is the negation of [name_char]. *)
Lemma loop_test_name_char (r : Z) :
  negb (is_digit r) && negb (is_upper r) && negb (is_lower r) && negb (r =? hyphen)
  = negb (name_char r).
Proof.
  unfold name_char, alnum.
  destruct (is_digit r), (is_upper r), (is_lower r), (r =? hyphen); reflexivity.
Qed.

Lemma hyphen_not_alnum (r : Z) : name_char r = true -> alnum r = negb (r =? hyphen).
Proof.
  unfold name_char. destruct (r =? hyphen) eqn:E.
  - apply Z.eqb_eq in E. subst r. reflexivity.
  - rewrite orb_false_r. intros ->. reflexivity.
Qed.

(** The loop over the runes decides a property of the bytes. *)
Lemma validate_runes_bytes (s : list Z) :
  forall i, 0 <= i ->
  validate_runes (range_from i 0 s) = first_not_hyphen i s && forallb name_char s.
Proof.
  induction s as [|b t IH]; intros i Hi; [reflexivity|].
  cbn [range_from first_not_hyphen forallb].
  destruct (b <? RuneSelf) eqn:Hb.
  - cbn [validate_runes]. rewrite loop_test_name_char.
    destruct ((i =? 0) && (b =? hyphen)); [reflexivity|].
    destruct (name_char b); cbn [negb andb]; [|reflexivity].
    rewrite IH by lia. unfold first_not_hyphen.
    replace (i + 1 =? 0) with false by (symmetry; apply Z.eqb_neq; lia).
    destruct t; reflexivity.
  - apply Z.ltb_ge in Hb.
    pose proof (decoderune_not_ascii (b :: t)) as Hr.
    destruct (decoderune (b :: t)) as [r w]. cbn [fst] in Hr.
    cbn [validate_runes]. rewrite loop_test_name_char.
    rewrite (name_char_high r Hr), (name_char_high b Hb).
    replace (r =? hyphen) with false
      by (symmetry; apply Z.eqb_neq; unfold hyphen, RuneSelf in *; lia).
    rewrite andb_false_r, andb_false_r. reflexivity.
Qed.

Lemma runes_all_name_chars (s : list Z) :
  forall i, forallb name_char (range_from i 0 s).*2 = forallb name_char s.
Proof.
  induction s as [|b t IH]; intros i; [reflexivity|].
  cbn [range_from forallb].
  destruct (b <? RuneSelf) eqn:Hb.
  - cbn. rewrite IH. reflexivity.
  - apply Z.ltb_ge in Hb.
    pose proof (decoderune_not_ascii (b :: t)) as Hr.
    destruct (decoderune (b :: t)) as [r w]. cbn [fst] in Hr.
    cbn. rewrite (name_char_high r Hr), (name_char_high b Hb). reflexivity.
Qed.

(** On a string of name characters every rune is one byte. *)
Lemma runes_of_name_chars (s : list Z) :
  forall i, forallb name_char s = true -> (range_from i 0 s).*2 = s.
Proof.
  induction s as [|b t IH]; intros i H; [reflexivity|].
  cbn [forallb] in H. apply andb_true_iff in H as [Hb Ht].
  cbn [range_from].
  apply name_char_ascii in Hb. apply Z.ltb_lt in Hb. rewrite Hb.
  cbn. rewrite IH by done. reflexivity.
Qed.

Lemma length_bytes (s : string) : length (bytes s) = String.length s.
Proof. induction s; simpl; congruence. Qed.

Lemma pattern_all_name_chars (rs : list Z) :
  matches_name_pattern rs = true -> forallb name_char rs = true.
Proof.
  destruct rs as [|r rest]; [done|]. cbn.
  intros [Ha ->]%andb_true_iff. unfold name_char. rewrite Ha. reflexivity.
Qed.

(** [validateName] in terms of the bytes of the string. *)
Lemma validateName_bytes (s : string) :
  validateName s
  = negb (64 <? len s) && first_not_hyphen 0 (bytes s) && forallb name_char (bytes s).
Proof.
  unfold validateName, range_string.
  destruct (64 <? len s); [reflexivity|].
  rewrite validate_runes_bytes by lia. reflexivity.
Qed.

(** On every string but the empty one, [validateName] decides what the
    specification asks of a name. *)
Lemma validateName_nonempty (s : string) :
  s <> EmptyString -> validateName s = spec_isValidName s.
Proof.
  intros Hne. rewrite validateName_bytes.
  unfold spec_isValidName, rune_count, runes, range_string, len.
  destruct (forallb name_char (bytes s)) eqn:Hall.
  - pose proof (runes_of_name_chars _ 0 Hall) as Hr.
    rewrite <- (length_fmap snd (range_from 0 0 (bytes s))), Hr, length_bytes.
    destruct s as [|c t]; [done|].
    cbn [bytes] in *. cbn [forallb] in Hall.
    apply andb_true_iff in Hall as [Hc Ht].
    cbn [matches_name_pattern first_not_hyphen String.length].
    rewrite Ht, (hyphen_not_alnum _ Hc), !andb_true_r.
    replace (0 =? 0) with true by reflexivity. cbn [andb].
    replace (1 <=? Z.of_nat (S (String.length t))) with true
      by (symmetry; apply Z.leb_le; lia).
    rewrite Z.leb_antisym. cbn [andb].
    reflexivity.
  - rewrite andb_false_r. symmetry.
    destruct (matches_name_pattern (range_from 0 0 (bytes s)).*2) eqn:Hp.
    + apply pattern_all_name_chars in Hp.
      rewrite runes_all_name_chars in Hp. congruence.
    + rewrite andb_false_r. reflexivity.
Qed.

End NameValidation.

(** ** Splitting on a separator *)

Section Splitting.

Lemma Split_not_nil (s : string) (sep : ascii) : Split s sep <> [].
Proof.
  induction s as [|c t IH]; cbn; [done|].
  destruct (Ascii.eqb c sep); [done|].
  destruct (Split t sep); done.
Qed.

(** The number of occurrences of a byte in a string. *)
Lemma Split_length (s : string) (sep : ascii) :
  length (Split s sep)
  = S (length (filter (fun c => c = sep) (list_ascii_of_string s))).
Proof.
  induction s as [|c t IH]; cbn [Split list_ascii_of_string]; [reflexivity|].
  destruct (Ascii.eqb_spec c sep) as [->|Hne].
  - rewrite filter_cons_True by done. cbn. rewrite IH. reflexivity.
  - rewrite filter_cons_False by done.
    pose proof (Split_not_nil t sep).
    destruct (Split t sep); [done|]. cbn in *. exact IH.
Qed.

(** Joining the fields with the separator gives the string back. *)
Lemma Split_join (s : string) (sep : ascii) :
  fold_right (fun f acc => match acc with
                           | None => Some f
                           | Some r => Some (f +:+ String sep r)
                           end) None (Split s sep) = Some s.
Proof.
  induction s as [|c t IH]; cbn [Split]; [reflexivity|].
  destruct (Ascii.eqb_spec c sep) as [->|Hne].
  - cbn. rewrite IH. reflexivity.
  - pose proof (Split_not_nil t sep).
    destruct (Split t sep) as [|h r]; [done|].
    cbn in *. destruct (fold_right _ None r); simplify_eq; reflexivity.
Qed.

(** No field holds the separator. *)
Lemma Split_fields_clean (s : string) (sep : ascii) :
  Forall (fun f => Forall (fun c => c <> sep) (list_ascii_of_string f)) (Split s sep).
Proof.
  induction s as [|c t IH]; cbn [Split].
  - repeat constructor.
  - destruct (Ascii.eqb_spec c sep) as [->|Hne].
    + constructor; [constructor | exact IH].
    + destruct (Split t sep) as [|h r]; [repeat constructor; done|].
      inversion IH; subst. constructor; [|done].
      cbn. constructor; done.
Qed.

Lemma Split_clean (s : string) (sep : ascii) :
  Forall (fun c => c <> sep) (list_ascii_of_string s) -> Split s sep = [s].
Proof.
  induction s as [|c t IH]; cbn; [done|].
  intros H. inversion H as [|? ? Hc Ht]; subst.
  destruct (Ascii.eqb_spec c sep); [done|].
  rewrite IH by done. reflexivity.
Qed.

Lemma append_nil (s : string) : EmptyString +:+ s = s.
Proof. reflexivity. Qed.

Lemma append_cons (c : ascii) (t s : string) : String c t +:+ s = String c (t +:+ s).
Proof. reflexivity. Qed.

Lemma Split_app (f rest : string) (sep : ascii) :
  Forall (fun c => c <> sep) (list_ascii_of_string f) ->
  Split (f +:+ String sep rest) sep = f :: Split rest sep.
Proof.
  induction f as [|c t IH]; cbn [list_ascii_of_string].
  - intros _. rewrite append_nil. cbn [Split]. rewrite Ascii.eqb_refl. reflexivity.
  - intros H. inversion H as [|? ? Hc Ht]; subst.
    rewrite append_cons. cbn [Split].
    destruct (Ascii.eqb_spec c sep); [done|].
    rewrite IH by done. reflexivity.
Qed.

End Splitting.

(** ** The parser *)


(** ** Trimming *)

Section Trimming.

Variable cutset : string.

Lemma append_assoc (a b c : string) : (a +:+ b) +:+ c = a +:+ b +:+ c.
Proof. induction a as [|x a IH]; [reflexivity|]. rewrite !append_cons, IH. reflexivity. Qed.

Lemma append_nil_r (a : string) : a +:+ EmptyString = a.
Proof. induction a as [|x a IH]; [reflexivity|]. rewrite append_cons, IH. reflexivity. Qed.

Lemma TrimRight_all (s : string) :
  all_in_cutset s cutset = true -> TrimRight s cutset = EmptyString.
Proof.
  unfold all_in_cutset.
  induction s as [|c t IH]; cbn [list_ascii_of_string forallb TrimRight]; [done|].
  intros [Hc Ht]%andb_true_iff. rewrite IH, Hc by done. reflexivity.
Qed.

Lemma TrimRight_app (s suf : string) :
  all_in_cutset suf cutset = true ->
  TrimRight (s +:+ suf) cutset = TrimRight s cutset.
Proof.
  intros Hsuf. induction s as [|c t IH].
  - rewrite append_nil. cbn [TrimRight]. apply TrimRight_all, Hsuf.
  - rewrite append_cons. cbn [TrimRight]. rewrite IH. reflexivity.
Qed.

Lemma TrimRight_clean (s : string) :
  last_in_cutset s cutset = false -> TrimRight s cutset = s.
Proof.
  induction s as [|c t IH]; [done|].
  cbn [last_in_cutset TrimRight]. destruct t as [|c' t'].
  - intros ->. reflexivity.
  - intros H. rewrite IH by exact H. reflexivity.
Qed.

Lemma TrimLeft_app (pre s : string) :
  all_in_cutset pre cutset = true ->
  TrimLeft (pre +:+ s) cutset = TrimLeft s cutset.
Proof.
  unfold all_in_cutset.
  induction pre as [|c t IH]; cbn [list_ascii_of_string forallb]; [done|].
  intros [Hc Ht]%andb_true_iff. rewrite append_cons. cbn [TrimLeft].
  rewrite Hc. apply IH, Ht.
Qed.

Lemma TrimLeft_clean (s : string) :
  head_in_cutset s cutset = false -> TrimLeft s cutset = s.
Proof. destruct s as [|c t]; cbn; [done|]. intros ->. reflexivity. Qed.

Lemma last_in_cutset_app (pre s : string) :
  s <> EmptyString -> last_in_cutset (pre +:+ s) cutset = last_in_cutset s cutset.
Proof.
  intros Hs. induction pre as [|c t IH]; [reflexivity|].
  rewrite append_cons. cbn [last_in_cutset].
  destruct (t +:+ s) as [|c' r] eqn:E; [|exact IH].
  destruct t, s; done.
Qed.

(** [Trim] removes the bytes of the cutset at both ends, whatever their
    number, and nothing else. *)
Lemma Trim_both_ends (pre body suf : string) :
  all_in_cutset pre cutset = true ->
  all_in_cutset suf cutset = true ->
  head_in_cutset body cutset = false ->
  last_in_cutset body cutset = false ->
  Trim (pre +:+ body +:+ suf) cutset = body.
Proof.
  intros Hpre Hsuf Hhead Hlast. unfold Trim.
  rewrite <- append_assoc, TrimRight_app by done.
  destruct body as [|c b].
  - rewrite append_nil_r, TrimRight_all by done. reflexivity.
  - rewrite TrimRight_clean by (rewrite last_in_cutset_app; done).
    rewrite TrimLeft_app by done. apply TrimLeft_clean, Hhead.
Qed.

Lemma TrimRight_decompose (s : string) :
  exists suf, s = TrimRight s cutset +:+ suf /\
              all_in_cutset suf cutset = true /\
              last_in_cutset (TrimRight s cutset) cutset = false.
Proof.
  induction s as [|c t (suf & Heq & Hsuf & Hlast)].
  - exists EmptyString. done.
  - cbn [TrimRight]. destruct (TrimRight t cutset) as [|c' r] eqn:E.
    + destruct (in_cutset c cutset) eqn:Hc.
      * exists (String c t). split_and!; [done| |done].
        rewrite append_nil in Heq. subst suf.
        unfold all_in_cutset in *. cbn. rewrite Hc, Hsuf. reflexivity.
      * exists suf. rewrite append_nil in Heq. subst suf.
        split_and!; [done|done|]. cbn. exact Hc.
    + exists suf. split_and!; [|done|exact Hlast].
      rewrite append_cons, <- Heq. reflexivity.
Qed.

Lemma TrimLeft_decompose (s : string) :
  exists pre, s = pre +:+ TrimLeft s cutset /\
              all_in_cutset pre cutset = true /\
              head_in_cutset (TrimLeft s cutset) cutset = false /\
              (last_in_cutset s cutset = false ->
               last_in_cutset (TrimLeft s cutset) cutset = false).
Proof.
  induction s as [|c t (pre & Heq & Hpre & Hhead & Hlast)].
  - exists EmptyString. done.
  - cbn [TrimLeft]. destruct (in_cutset c cutset) eqn:Hc.
    + exists (String c pre). split_and!.
      * rewrite append_cons, <- Heq. reflexivity.
      * unfold all_in_cutset in *. cbn. rewrite Hc, Hpre. reflexivity.
      * exact Hhead.
      * intros H. apply Hlast. cbn [last_in_cutset] in H.
        destruct t; [reflexivity|exact H].
    + exists EmptyString. split_and!; [done|done| |done]. cbn. exact Hc.
Qed.

(** Every string is its trimmed part between two runs of bytes of the
    cutset. *)
Lemma Trim_decompose (s : string) :
  exists pre suf,
    s = pre +:+ Trim s cutset +:+ suf /\
    all_in_cutset pre cutset = true /\ all_in_cutset suf cutset = true /\
    head_in_cutset (Trim s cutset) cutset = false /\
    last_in_cutset (Trim s cutset) cutset = false.
Proof.
  unfold Trim.
  destruct (TrimRight_decompose s) as (suf & Hs & Hsuf & Hlast).
  destruct (TrimLeft_decompose (TrimRight s cutset)) as (pre & Hr & Hpre & Hhead & Hl).
  exists pre, suf. split_and!; [|done|done|done|auto].
  rewrite <- append_assoc, <- Hr. exact Hs.
Qed.

End Trimming.

(** ** The connection handler *)

Lemma conn_turn_line (t : turn) (line : string) :
  read_err t <> Some EOF ->
  Trim (read_bytes t) crlf = line ->
  line <> EmptyString ->
  conn_turn t = match parseMetric line with
                | Err e => Terminated (Error e)
                | Ok m => if outside_window t m then Dropped else HandedOff m
                end.
Proof.
  intros Herr Hline Hne. unfold conn_turn. rewrite Hline.
  destruct (read_err t) as [[]|]; [done| |]; destruct line; done.
Qed.

Lemma conn_turn_empty (t : turn) :
  read_err t <> Some EOF ->
  Trim (read_bytes t) crlf = EmptyString ->
  conn_turn t = Terminated "client terminated: Empty input".
Proof.
  intros Herr Hline. unfold conn_turn. rewrite Hline.
  destruct (read_err t) as [[]|]; done.
Qed.

Lemma connHandler_terminated (t : turn) (rest : list turn) (msg : string) :
  conn_turn t = Terminated msg ->
  connHandler (t :: rest) = ([Log msg; ConnClose; Signal], Returned).
Proof. intros H. cbn [connHandler]. rewrite H. reflexivity. Qed.

Lemma connHandler_dropped (t : turn) (rest : list turn) :
  conn_turn t = Dropped -> connHandler (t :: rest) = connHandler rest.
Proof.
  intros H. cbn [connHandler]. rewrite H.
  destruct (connHandler rest). reflexivity.
Qed.

Lemma connHandler_handed_off (t : turn) (rest : list turn) (m : metric) :
  conn_turn t = HandedOff m ->
  connHandler (t :: rest)
  = (Send m :: AddRawCount :: (connHandler rest).1, (connHandler rest).2).
Proof.
  intros H. cbn [connHandler]. rewrite H.
  destruct (connHandler rest). reflexivity.
Qed.

(** What is handed off was parsed from the trimmed line and passed the
    window test. *)
Lemma handed_off_parsed (t : turn) (m : metric) :
  conn_turn t = HandedOff m ->
  parseMetric (Trim (read_bytes t) crlf) = Ok m /\ outside_window t m = false.
Proof.
  unfold conn_turn.
  destruct (read_err t) as [[]|]; [done| |];
    (destruct (Trim (read_bytes t) crlf) as [|c l] eqn:E; [done|];
     destruct (parseMetric (String c l)) as [m'|e]; [|done];
     destruct (outside_window t m') eqn:Hw; [done|];
     intros [= ->]; done).
Qed.

Lemma parsed_count_mean (line : string) (m : metric) :
  parseMetric line = Ok m -> count m = 1 /\ mean m = value m.
Proof.
  unfold parseMetric. intros H.
  repeat case_match; simplify_eq; done.
Qed.

Lemma outside_window_false (t : turn) (m : metric) :
  outside_window t m = false <->
  now_lower t - 60 * Second <= time m <= now_upper t.
Proof.
  unfold outside_window, Before, After, UTC, Add.
  rewrite orb_false_iff, !Z.ltb_ge. lia.
Qed.

(** C3: a parsed record is handed off exactly when its timestamp lies
    between [now - 60s] and [now], both bounds included, [now] being the
    reading of the clock at the test; outside of that window the record
    is dropped and the loop goes on to the next read, with no effect and
    without closing the connection. *)
Theorem window_filter (t : turn) (line : string) (m : metric) (now : instant)
    (rest : list turn) :
  read_err t <> Some EOF ->
  Trim (read_bytes t) crlf = line ->
  line <> EmptyString ->
  parseMetric line = Ok m ->
  now_lower t = now ->
  now_upper t = now ->
  (conn_turn t = HandedOff m <-> now - 60 * Second <= time m <= now)
  /\ (now - 60 * Second <= time m <= now ->
      connHandler (t :: rest)
      = (Send m :: AddRawCount :: (connHandler rest).1, (connHandler rest).2))
  /\ (~ (now - 60 * Second <= time m <= now) ->
      conn_turn t = Dropped /\ connHandler (t :: rest) = connHandler rest).
Proof.
  intros Herr Hline Hne Hparse Hlo Hhi.
  pose proof (conn_turn_line t line Herr Hline Hne) as Hturn.
  rewrite Hparse in Hturn.
  pose proof (outside_window_false t m) as Hw. rewrite Hlo, Hhi in Hw.
  destruct (outside_window t m) eqn:E.
  - assert (~ (now - 60 * Second <= time m <= now)) as Hout
      by (intros H; apply Hw in H; discriminate).
    split_and!.
    + rewrite Hturn. split; [discriminate|done].
    + done.
    + intros _. split; [done|]. by apply connHandler_dropped.
  - assert (now - 60 * Second <= time m <= now) as Hin by (by apply Hw).
    split_and!.
    + rewrite Hturn. done.
    + intros _. by apply connHandler_handed_off.
    + done.
Qed.

(** C9: the handler removes carriage returns and line feeds at both ends
    of what it has read, at the left as at the right, before it tests for
    the empty line and before it parses.  A read of such bytes only ends
    the handler as the empty line does, and the parser receives a record
    without the line terminators that came before or after it. *)
Theorem connHandler_trims_both_ends (pre body suf : string) (t : turn)
    (rest : list turn) :
  all_in_cutset pre crlf = true ->
  all_in_cutset suf crlf = true ->
  head_in_cutset body crlf = false ->
  last_in_cutset body crlf = false ->
  read_bytes t = pre +:+ body +:+ suf ->
  read_err t <> Some EOF ->
  Trim (read_bytes t) crlf = body
  /\ (body = EmptyString ->
      conn_turn t = Terminated "client terminated: Empty input" /\
      connHandler (t :: rest)
      = ([Log "client terminated: Empty input"; ConnClose; Signal], Returned))
  /\ (body <> EmptyString ->
      conn_turn t = match parseMetric body with
                    | Err e => Terminated (Error e)
                    | Ok m => if outside_window t m then Dropped else HandedOff m
                    end).
Proof.
  intros Hpre Hsuf Hhead Hlast Hread Herr.
  assert (Trim (read_bytes t) crlf = body) as Htrim
    by (rewrite Hread; by apply Trim_both_ends).
  split_and!; [done| |].
  - intros ->. pose proof (conn_turn_empty t Herr Htrim) as H.
    split; [done|]. by apply connHandler_terminated.
  - intros Hne. by apply conn_turn_line.
Qed.

(** ** Values that are not finite *)

Section NonFinite.

Lemma SFeqb_refl_finite (s : bool) (m : positive) (e : Z) :
  SFeqb (S754_finite s m e) (S754_finite s m e) = true.
Proof.
  unfold SFeqb, SFcompare. rewrite Z.compare_refl, Pos.compare_cont_refl.
  destruct s; reflexivity.
Qed.

Lemma is_nan_Prim2SF (x : float) :
  PrimFloat.is_nan x = true <-> Prim2SF x = S754_nan.
Proof.
  unfold PrimFloat.is_nan. rewrite FloatAxioms.eqb_spec.
  destruct (Prim2SF x) as [s|s| |s m e] eqn:E.
  - destruct s; cbn; split; discriminate.
  - destruct s; cbn; split; discriminate.
  - cbn. done.
  - rewrite SFeqb_refl_finite. cbn. split; discriminate.
Qed.





Lemma add_nan (a x : float) :
  PrimFloat.is_nan x = true -> PrimFloat.is_nan (a + x) = true.
Proof.
  rewrite !is_nan_Prim2SF, add_spec. intros ->.
  destruct (Prim2SF a); reflexivity.
Qed.

Lemma div_nan (x y : float) :
  PrimFloat.is_nan x = true -> PrimFloat.is_nan (x / y) = true.
Proof.
  rewrite !is_nan_Prim2SF, div_spec. intros ->. reflexivity.
Qed.

End NonFinite.

(** ** The store *)

Lemma int_wrap_in_range (n : Z) : - 2 ^ 63 <= n < 2 ^ 63 -> int_wrap n = n.
Proof.
  intros H. unfold int_wrap.
  rewrite Z.mod_small by lia. lia.
Qed.

Lemma update_lookup (s : store) (m : metric) :
  data (update s m).1 !! name m
  = Some match data s !! name m with
         | Some cm =>
           {| name := name m; value := value cm + value m;
              mean := (value cm + value m) / float64_of_int (int_wrap (count cm + 1));
              time := time m; count := int_wrap (count cm + 1) |}
         | None => m
         end.
Proof. unfold update. cbn [fst data]. rewrite lookup_insert_eq. reflexivity. Qed.

Lemma update_lookup_ne (s : store) (m : metric) (k : string) :
  k <> name m -> data (update s m).1 !! k = data s !! k.
Proof. intros H. unfold update. cbn [fst data]. by rewrite lookup_insert_ne. Qed.

(** C1: [update] always returns, without an error.  When the store holds
    an aggregate for the name of the record, the new aggregate has the sum
    of the two values, one more in its count, the quotient of the two as
    its mean, and the timestamp of the record; when it holds none, the new
    aggregate has the value of the record as sum and as mean, count 1 and
    the timestamp of the record.  The other names are untouched.  Folding
    10, 20 and 30 under one name gives sum 60, count 3, mean 20.
    (A record is what [parseMetric] builds: its count is 1 and its mean is
    its value.  The count of a Go [int] is below [2^63].) *)
Theorem update_folds (s : store) (r : metric) :
  (update s r).2 = None
  /\ (forall a, data s !! name r = Some a ->
        - 2 ^ 63 <= count a < 2 ^ 63 - 1 ->
        data (update s r).1 !! name r
        = Some {| name := name r; value := value a + value r;
                  mean := (value a + value r) / float64_of_int (count a + 1);
                  time := time r; count := count a + 1 |})
  /\ (data s !! name r = None ->
      count r = 1 -> mean r = value r ->
      data (update s r).1 !! name r
      = Some {| name := name r; value := value r; mean := value r;
                time := time r; count := 1 |})
  /\ (forall k, k <> name r -> data (update s r).1 !! k = data s !! k)
  /\ (forall t1 t2 t3,
        data s !! name r = None ->
        let rec v t := {| name := name r; value := v; mean := v; time := t; count := 1 |} in
        let s1 := (update s (rec 10%float t1)).1 in
        let s2 := (update s1 (rec 20%float t2)).1 in
        let s3 := (update s2 (rec 30%float t3)).1 in
        data s2 !! name r
        = Some {| name := name r; value := 30; mean := 15; time := t2; count := 2 |}
        /\ data s3 !! name r
           = Some {| name := name r; value := 60; mean := 20; time := t3; count := 3 |}).
Proof.
  split_and!.
  - reflexivity.
  - intros a Ha Hrange. rewrite update_lookup, Ha.
    rewrite int_wrap_in_range by lia. reflexivity.
  - intros Hnone Hc Hm. rewrite update_lookup, Hnone.
    destruct r as [n v mn t c]. cbn in *. subst. reflexivity.
  - intros k Hk. by apply update_lookup_ne.
  - intros t1 t2 t3 Hnone rec s1 s2 s3.
    pose proof (update_lookup s (rec 10%float t1)) as H1.
    cbn [name rec] in H1. rewrite Hnone in H1. fold s1 in H1.
    pose proof (update_lookup s1 (rec 20%float t2)) as H2.
    cbn [name rec] in H2. rewrite H1 in H2. fold s2 in H2.
    pose proof (update_lookup s2 (rec 30%float t3)) as H3.
    cbn [name rec] in H3. rewrite H2 in H3. fold s3 in H3.
    rewrite H2, H3. cbn [value count rec time]. split; f_equal.
Qed.

(** ** Values that the parser lets through *)


(** ** The scheduler and the handlers *)

Section Conservation.

Lemma total_count_insert_None (d : gmap string metric) (k : string) (m : metric) :
  d !! k = None -> total_count (<[k:=m]> d) = count m + total_count d.
Proof.
  intros H. unfold total_count.
  rewrite map_fold_insert_L; [reflexivity| |exact H].
  intros. cbn beta. lia.
Qed.

Lemma total_count_delete (d : gmap string metric) (k : string) (m : metric) :
  d !! k = Some m -> total_count d = count m + total_count (delete k d).
Proof.
  intros H. rewrite <- (insert_delete_id d k m H) at 1.
  apply total_count_insert_None, lookup_delete_eq.
Qed.

Lemma total_count_insert_Some (d : gmap string metric) (k : string) (cm m : metric) :
  d !! k = Some cm ->
  total_count (<[k:=m]> d) = count m - count cm + total_count d.
Proof.
  intros H. rewrite (total_count_delete d k cm H), <- insert_delete_eq.
  rewrite total_count_insert_None by apply lookup_delete_eq. lia.
Qed.

Lemma total_count_nonneg (d : gmap string metric) :
  (forall k m, d !! k = Some m -> 0 <= count m) -> 0 <= total_count d.
Proof.
  induction d as [|k m d Hk IH] using map_ind; intros H.
  - unfold total_count. rewrite map_fold_empty. lia.
  - rewrite total_count_insert_None by done.
    pose proof (H k m (lookup_insert_eq _ _ _)).
    enough (0 <= total_count d) by lia.
    apply IH. intros k' m' Hk'. apply (H k' m').
    rewrite lookup_insert_ne; [done|]. intros ->. congruence.
Qed.

Lemma count_le_total (d : gmap string metric) (k : string) (m : metric) :
  (forall k m, d !! k = Some m -> 0 <= count m) ->
  d !! k = Some m -> count m <= total_count d.
Proof.
  intros Hpos Hk. rewrite (total_count_delete d k m Hk).
  enough (0 <= total_count (delete k d)) by lia.
  apply total_count_nonneg. intros k' m' H'.
  apply lookup_delete_Some in H' as [_ H']. eauto.
Qed.

Lemma handed_off_mono (s s' : sys) : sys_step s s' -> handed_off s <= handed_off s'.
Proof. destruct 1; cbn; lia. Qed.

Lemma store_inv_step (s s' : sys) :
  sys_step s s' -> handed_off s' < 2 ^ 63 -> store_inv s -> store_inv s'.
Proof.
  intros Hstep Hbound (Hcount & Htotal & Hdr).
  assert (forall k m, data (sys_store s) !! k = Some m -> 0 <= count m) as Hpos
    by (intros k m H; apply Hcount in H; lia).
  destruct Hstep as [s t m Hr Hturn|s Hu|s Hr|s Hr|s out st' Hr Htick];
    unfold store_inv; cbn [sys_store drained handed_off after_ingress after_add
      after_raw_load after_raw_store after_collection]; try done.
  - apply handed_off_parsed in Hturn as [Hparse _].
    apply parsed_count_mean in Hparse as [Hc _].
    cbn [handed_off after_ingress] in Hbound.
    unfold update. cbn [fst data].
    destruct (data (sys_store s) !! name m) as [cm|] eqn:Hcm.
    + pose proof (count_le_total _ _ _ Hpos Hcm) as Hle.
      pose proof (Hcount _ _ Hcm) as [Hcm1 _].
      rewrite int_wrap_in_range by lia.
      split_and!; [|rewrite (total_count_insert_Some _ _ cm) by done; cbn; lia|done].
      intros k m' [[<- <-]|[? ?]]%lookup_insert_Some; cbn; [split; [lia|done]|eauto].
    + split_and!; [|rewrite total_count_insert_None by done; lia|done].
      intros k m' [[<- <-]|[? ?]]%lookup_insert_Some; [split; [lia|done]|eauto].
  - destruct Htick. cbn [data newStore]. split_and!.
    + intros k m. rewrite lookup_empty. done.
    + unfold total_count at 1. rewrite map_fold_empty. lia.
    + pose proof (total_count_nonneg _ Hpos). lia.
Qed.

(** No record received is lost to the store by a flush: as long as fewer
    than [2^63] records have been received, the counts of the aggregates
    in the store and of the aggregates flushed add up to the number of
    records received. *)
Lemma store_conservation (s : sys) :
  reachable s -> handed_off s < 2 ^ 63 -> store_inv s.
Proof.
  unfold reachable. revert s.
  apply (rtc_ind_r (fun s => handed_off s < 2 ^ 63 -> store_inv s)).
  - intros _. unfold store_inv. cbn. split_and!; [|reflexivity|lia].
    intros k m. rewrite lookup_empty. done.
  - intros s s' Hrtc Hstep IH Hb. apply (store_inv_step s s' Hstep Hb), IH.
    pose proof (handed_off_mono _ _ Hstep). lia.
Qed.

(** A raw tick that loads the counter, lets a handler add to it, and
    then stores zero forgets that handler's record: it is in no report
    and not in the counter. *)
Lemma increment_lost (t : turn) (m : metric) :
  conn_turn t = HandedOff m ->
  exists s, reachable s /\ handed_off s = 1 /\ unadded s = 0 /\
            resetting s = false /\ rawCount s = 0 /\ stderr s = [0] /\
            data (sys_store s) !! name m = Some m.
Proof.
  intros Hturn.
  exists (after_raw_store (after_add (after_raw_load (after_ingress sys_init m)))).
  split; [|split_and!; try done;
            cbn [sys_store after_raw_store after_add after_raw_load after_ingress sys_init];
            rewrite update_lookup; cbn [newStore data]; by rewrite lookup_empty].
  unfold reachable.
  eapply rtc_l; [by apply (step_ingress _ t m)|].
  eapply rtc_l; [by apply step_raw_load|].
  eapply rtc_l; [by apply step_add|].
  eapply rtc_l; [by apply step_raw_store|].
  apply rtc_refl.
Qed.

(** The store is keyed by the names of its aggregates. *)
Lemma store_keyed_by_name (s : sys) :
  reachable s ->
  forall k m, data (sys_store s) !! k = Some m -> name m = k.
Proof.
  unfold reachable. revert s.
  apply (rtc_ind_r (fun s => forall k m, data (sys_store s) !! k = Some m -> name m = k)).
  - intros k m. cbn. rewrite lookup_empty. done.
  - intros s s' _ Hstep IH.
    destruct Hstep as [s t m Hr Hturn|s Hu|s Hr|s Hr|s out st' Hr Htick];
      cbn [sys_store after_ingress after_add after_raw_load after_raw_store
           after_collection]; try done.
    + intros k m'. destruct (decide (k = name m)) as [->|Hne].
      * rewrite update_lookup. intros [= <-]. by destruct (data (sys_store s) !! name m).
      * rewrite update_lookup_ne by done. apply IH.
    + destruct Htick. intros k m. cbn. rewrite lookup_empty. done.
Qed.

End Conservation.

(** ** Failed reads *)

Lemma conn_turn_eof (t : turn) (rest : list turn) :
  read_err t = Some EOF ->
  conn_turn t = Terminated "client terminated: EOF" /\
  connHandler (t :: rest)
  = ([Log "client terminated: EOF"; ConnClose; Signal], Returned).
Proof.
  intros H. assert (conn_turn t = Terminated "client terminated: EOF") as Ht
    by (unfold conn_turn; rewrite H; reflexivity).
  split; [done|]. by apply connHandler_terminated.
Qed.

(** A failure of the read other than the end of the stream is not looked
    at: the turn goes on as after a read without error. *)
Lemma read_failure_ignored (b : string) (lo hi : instant) :
  conn_turn {| read_bytes := b; read_err := Some ReadFailure;
               now_lower := lo; now_upper := hi |}
  = conn_turn {| read_bytes := b; read_err := None;
                 now_lower := lo; now_upper := hi |}.
Proof. reflexivity. Qed.

(** ** More on the parser *)

Section WireFormat.

Lemma name_char_not_tab (c : ascii) :
  name_char (byte_of c) = true -> c <> char_tab.
Proof. intros H ->. vm_compute in H. discriminate. Qed.

Lemma tab_count_cons (c : ascii) (s : string) :
  tab_count (String c s)
  = if decide (c = char_tab) then S (tab_count s) else tab_count s.
Proof.
  unfold tab_count. cbn [list_ascii_of_string].
  destruct (decide (c = char_tab)) as [->|Hne].
  - rewrite filter_cons_True by done. reflexivity.
  - rewrite filter_cons_False by done. reflexivity.
Qed.

Lemma tab_free_Forall (s : string) :
  tab_count s = 0%nat <-> Forall (fun c => c <> char_tab) (list_ascii_of_string s).
Proof.
  induction s as [|c t IH]; [by split; [constructor|]|].
  rewrite tab_count_cons. cbn [list_ascii_of_string]. rewrite Forall_cons.
  destruct (decide (c = char_tab)) as [->|Hne]; [|tauto].
  split; [discriminate|]. intros [? _]. done.
Qed.

Lemma validateName_tab_free (n : string) :
  validateName n = true -> tab_count n = 0%nat.
Proof.
  rewrite validateName_bytes. intros [_ H]%andb_true_iff.
  apply tab_free_Forall. induction n as [|c t IH]; [constructor|].
  cbn [bytes forallb] in H. apply andb_true_iff in H as [Hc Ht].
  cbn [list_ascii_of_string]. constructor; [by apply name_char_not_tab|by apply IH].
Qed.

Lemma Split_three (d0 d1 d2 : string) :
  tab_count d0 = 0%nat -> tab_count d1 = 0%nat -> tab_count d2 = 0%nat ->
  Split (d0 +:+ tab +:+ d1 +:+ tab +:+ d2) char_tab = [d0; d1; d2].
Proof.
  intros H0%tab_free_Forall H1%tab_free_Forall H2%tab_free_Forall.
  change (d0 +:+ tab +:+ d1 +:+ tab +:+ d2)
    with (d0 +:+ String char_tab (d1 +:+ String char_tab d2)).
  rewrite (Split_app d0) by done. rewrite (Split_app d1) by done.
  rewrite (Split_clean d2) by done. reflexivity.
Qed.

Lemma Split_three_inv (line d0 d1 d2 : string) :
  Split line char_tab = [d0; d1; d2] ->
  line = d0 +:+ tab +:+ d1 +:+ tab +:+ d2 /\
  tab_count d0 = 0%nat /\ tab_count d1 = 0%nat /\ tab_count d2 = 0%nat.
Proof.
  intros Hs. pose proof (Split_join line char_tab) as Hj.
  pose proof (Split_fields_clean line char_tab) as Hc.
  rewrite Hs in Hj, Hc. cbn in Hj. injection Hj as <-.
  inversion Hc as [|? ? H0 Hc1]; subst. inversion Hc1 as [|? ? H1 Hc2]; subst.
  inversion Hc2 as [|? ? H2 _]; subst.
  split; [reflexivity|]. by rewrite !tab_free_Forall.
Qed.

(** X1: [parseMetric] answers with the missing-values error exactly on
    the lines that do not hold two tabs. *)
Theorem parseMetric_missing_values (line : string) :
  parseMetric line = Err ErrMissingValues <-> tab_count line <> 2%nat.
Proof.
  pose proof (Split_length line char_tab) as HL. fold (tab_count line) in HL.
  unfold parseMetric.
  destruct (Split line char_tab) as [|d0 [|d1 [|d2 [|d3 ds]]]]; cbn [length] in HL.
  4: { assert (tab_count line = 2%nat) as -> by lia.
       repeat case_match; split; intros; done. }
  all: split; [intros _; lia | reflexivity].
Qed.

(** X2: the lines [parseMetric] accepts are the lines of the wire format:
    a name that passes [validateName], a tab, a text without tab that
    [ParseFloat] accepts, a tab, a text without tab that [time.Parse]
    accepts.  The record holds the name and the two parsed values, its
    count is 1 and its mean is its value. *)
Theorem parseMetric_wire_format (line : string) (m : metric) :
  parseMetric line = Ok m <->
  exists v ts,
    line = name m +:+ tab +:+ v +:+ tab +:+ ts /\
    tab_count v = 0%nat /\ tab_count ts = 0%nat /\
    validateName (name m) = true /\
    ParseFloat v = Some (value m) /\
    time_Parse iso8601Format ts = Some (time m) /\
    count m = 1 /\ mean m = value m.
Proof.
  split.
  - unfold parseMetric.
    destruct (Split line char_tab) as [|d0 [|d1 [|d2 [|d3 ds]]]] eqn:Hs; try done.
    destruct (validateName d0) eqn:Hn; [|done]. cbn [negb].
    destruct (ParseFloat d1) as [v|] eqn:Hv; [|done].
    destruct (time_Parse iso8601Format d2) as [t|] eqn:Ht; [|done].
    intros [= <-]. cbn [name value mean time count].
    apply Split_three_inv in Hs as (-> & _ & H1 & H2).
    exists d1, d2. done.
  - intros (v & ts & -> & Hv0 & Hts0 & Hn & Hv & Ht & Hc & Hm).
    unfold parseMetric.
    rewrite Split_three by (try done; by apply validateName_tab_free).
    rewrite Hn, Hv, Ht. destruct m as [n x mn t c]. cbn in *. by subst.
Qed.

End WireFormat.

(** ** More on the connection handler *)

Section HandlerEffects.

Lemma parsed_name_valid (line : string) (m : metric) :
  parseMetric line = Ok m -> validateName (name m) = true.
Proof.
  unfold parseMetric. intros H.
  repeat case_match; simplify_eq. cbn.
  by destruct (validateName _).
Qed.

(** X3: what a handler hands off is a record whose name passes
    [validateName], with count 1 and its value as mean, and whose
    timestamp is at most 60 seconds before the first reading of the clock
    and not after the second; the read did not end the stream. *)
Theorem handed_off_record (t : turn) (m : metric) :
  conn_turn t = HandedOff m ->
  validateName (name m) = true
  /\ count m = 1 /\ mean m = value m
  /\ now_lower t - 60 * Second <= time m <= now_upper t
  /\ read_err t <> Some EOF.
Proof.
  intros H. pose proof (handed_off_parsed t m H) as [Hp Hw].
  pose proof (parsed_count_mean _ _ Hp) as [Hc Hm].
  split_and!; try done.
  - by eapply parsed_name_valid.
  - by apply outside_window_false.
  - by apply outside_window_false.
  - intros He. unfold conn_turn in H. rewrite He in H. done.
Qed.


(** X5: a handler that has returned reads nothing more, and a handler
    that waits for input goes on with the turns that come as a handler
    that starts with them. *)
Theorem connHandler_app (turns more : list turn) :
  connHandler (turns ++ more)
  = match connHandler turns with
    | (es, Returned) => (es, Returned)
    | (es, Reading) => (es ++ (connHandler more).1, (connHandler more).2)
    end.
Proof.
  induction turns as [|t rest IH].
  - cbn [app connHandler]. by destruct (connHandler more).
  - cbn [app connHandler]. destruct (conn_turn t) as [msg| |m]; [reflexivity| |].
    + rewrite IH. destruct (connHandler rest) as [es []]; reflexivity.
    + rewrite IH. destruct (connHandler rest) as [es []]; reflexivity.
Qed.

End HandlerEffects.


(** ** More on the scheduler *)

Section Accounting.

(** X6: as long as fewer than [2^63] records have been received, every
    aggregate of the store is kept under its own name and counts at least
    one record, and the counts of the aggregates in the store, added to
    those of the aggregates the flush ticks have printed, are the number
    of records received: no fold is lost and none counts twice. *)
Theorem records_accounted_in_store (s : sys) :
  reachable s ->
  handed_off s < 2 ^ 63 ->
  (forall k m, data (sys_store s) !! k = Some m ->
     name m = k /\ 1 <= count m <= handed_off s)
  /\ total_count (data (sys_store s)) + drained s = handed_off s.
Proof.
  intros Hr Hb. destruct (store_conservation s Hr Hb) as (Hc & Ht & Hd).
  split; [|exact Ht].
  intros k m Hk. destruct (Hc k m Hk) as [H1 Hn]. split_and!; try done.
  assert (count m <= total_count (data (sys_store s))); [|lia].
  apply (count_le_total _ k); [|done].
  intros k' m' H'. apply Hc in H'. lia.
Qed.

Lemma sum_Z_nonneg (l : list Z) : Forall (fun r => 0 <= r) l -> 0 <= sum_Z l.
Proof. unfold sum_Z. induction 1; cbn; lia. Qed.

Lemma sum_Z_snoc (l : list Z) (x : Z) : sum_Z (l ++ [x]) = sum_Z l + x.
Proof. unfold sum_Z. induction l; cbn; lia. Qed.

(** The invariant of the raw counter. *)
Lemma raw_count_inv (s : sys) :
  reachable s ->
  handed_off s < 2 ^ 64 ->
  0 <= rawCount s /\ 0 <= unadded s /\ Forall (fun r => 0 <= r) (stderr s)
  /\ if resetting s
     then exists pre r, stderr s = pre ++ [r] /\ r <= rawCount s /\
                        sum_Z pre + rawCount s + unadded s <= handed_off s
     else sum_Z (stderr s) + rawCount s + unadded s <= handed_off s.
Proof.
  unfold reachable. revert s.
  apply (rtc_ind_r (fun s => handed_off s < 2 ^ 64 -> _)).
  - intros _. cbn. split_and!; try done; try lia.
  - intros s s' _ Hstep IH Hb.
    pose proof (handed_off_mono _ _ Hstep) as Hmono.
    destruct IH as (Hraw & Hun & Hpos & Hacc); [lia|].
    pose proof sum_Z_nonneg as Hsum.
    destruct Hstep as [s t m Hr Hturn|s Hu|s Hr|s Hr|s out st' Hr Htick];
      cbn [rawCount unadded stderr resetting handed_off after_ingress after_add
           after_raw_load after_raw_store after_collection] in *.
    + rewrite Hr in *. split_and!; try done; lia.
    + assert (rawCount s + 1 < 2 ^ 64) as Hlt.
      { destruct (resetting s).
        - destruct Hacc as (pre & r & Heq & Hle & Hacc).
          rewrite Heq in Hpos. apply Forall_app in Hpos as [Hpre _].
          pose proof (Hsum _ Hpre). lia.
        - pose proof (Hsum _ Hpos). lia. }
      unfold uint64_wrap. rewrite Z.mod_small by lia.
      split_and!; try done; try lia.
      destruct (resetting s).
      * destruct Hacc as (pre & r & Heq & Hle & Hacc).
        exists pre, r. split_and!; [done|lia|lia].
      * lia.
    + rewrite Hr in Hacc. split_and!; try done.
      * apply Forall_app. split; [done|]. by repeat constructor.
      * exists (stderr s), (rawCount s). split_and!; [done|lia|lia].
    + rewrite Hr in Hacc. destruct Hacc as (pre & r & Heq & Hle & Hacc).
      split_and!; try done; try lia.
      rewrite Heq, sum_Z_snoc. lia.
    + split_and!; done.
Qed.

(** X7: the raw ticks never report a record twice: as long as fewer than
    [2^64] records have been received, the counts reported so far add up
    to at most the number of records received, and the counter itself is
    between 0 and that number. *)
Theorem raw_reports_never_exceed (s : sys) :
  reachable s ->
  handed_off s < 2 ^ 64 ->
  sum_Z (stderr s) <= handed_off s
  /\ 0 <= rawCount s <= handed_off s
  /\ Forall (fun r => 0 <= r) (stderr s).
Proof.
  intros Hr Hb. destruct (raw_count_inv s Hr Hb) as (Hraw & Hun & Hpos & Hacc).
  pose proof sum_Z_nonneg as Hsum. pose proof sum_Z_snoc as Happ.
  pose proof (Hsum _ Hpos).
  destruct (resetting s).
  - destruct Hacc as (pre & r & Heq & Hle & Hacc).
    rewrite Heq in *. rewrite Happ in *.
    apply Forall_app in Hpos as [Hpre Hr0]. pose proof (Hsum _ Hpre).
    split_and!; try lia. apply Forall_app. done.
  - split_and!; try lia. done.
Qed.

End Accounting.


End Service.

(** ** The bound on the connections *)

Section AdmissionBound.

Import Admission.

Lemma step_inv (a : action) (g g' : gate) :
  inv g -> step a g = Some g' -> inv g'.
Proof.
  unfold inv, step, Wait, Admission.Signal, P, V, chan_send, chan_recv, capacity.
  intros (Hh & Hs & Hc & Hacq) Hstep.
  destruct a, (pc g) eqn:Hpc; simplify_eq;
    repeat case_match; simplify_eq; cbn;
    repeat match goal with
    | H : (_ <? _) = true |- _ => apply Z.ltb_lt in H
    | H : (_ <? _) = false |- _ => apply Z.ltb_ge in H
    end; try rewrite Hpc; lia.
Qed.

Lemma run_inv (tr : list action) :
  forall g g', inv g -> run tr g = Some g' -> inv g'.
Proof.
  induction tr as [|a tr IH]; intros g g' Hinv Hrun; cbn in Hrun.
  - by simplify_eq.
  - destruct (step a g) as [g1|] eqn:Hstep; [|done].
    eapply IH; [|exact Hrun]. by eapply step_inv.
Qed.

Lemma init_inv : inv init.
Proof. unfold inv, init, capacity. cbn. lia. Qed.

(** C5: with the capacity of 10, in every state the accept loop and the
    handlers can reach, the acquisitions not yet released are the values
    in the channel, at most 10, and the handlers running are at most as
    many.  When the channel is full the next acquisition does not return;
    no step but the return of a handler changes that, and after such a
    return an acquisition goes through. *)
Theorem at_most_capacity_active (tr : list action) (g : gate) :
  run tr init = Some g ->
  acquired g - released g = sem g
  /\ sem g <= capacity
  /\ 0 <= handlers g <= sem g
  /\ handlers g <= 10
  /\ (sem g = capacity ->
      step MainWait g = None
      /\ (forall a g', step a g = Some g' -> a <> HandlerReturn ->
            sem g' = capacity /\ step MainWait g' = None)
      /\ (forall g', step HandlerReturn g = Some g' ->
            sem g' = capacity - 1 /\
            released g' = released g + 1 /\
            (pc g' = AtWait -> is_Some (step MainWait g')))).
Proof.
  intros Hrun. pose proof (run_inv tr _ _ init_inv Hrun) as (Hh & Hs & Hc & Hacq).
  assert (forall g0, sem g0 = capacity -> step MainWait g0 = None) as Hfull.
  { intros g0 H0. unfold step, Wait, P, chan_send. rewrite H0.
    destruct (pc g0); reflexivity. }
  split_and!; try (unfold capacity in *; destruct (pc g); lia).
  intros Hcap. split_and!.
  - by apply Hfull.
  - intros a g' Hstep Ha.
    assert (sem g' = capacity) as Hg'.
    { unfold step in Hstep. destruct a, (pc g); simplify_eq; try done.
      unfold Wait, P, chan_send in Hstep. rewrite Hcap in Hstep. done. }
    split; [done|by apply Hfull].
  - intros g' Hstep. unfold step, Admission.Signal, V, chan_recv in Hstep.
    rewrite Hcap in Hstep. unfold capacity in Hstep. cbn in Hstep.
    destruct (pc g) eqn:Hpc; destruct (0 <? handlers g); simplify_eq; cbn.
    all: split_and!; try done.
    all: intros _; unfold step, Wait, P, chan_send; cbn; eauto.
Qed.

End AdmissionBound.

(** ** The flush *)

Section Flush.

Lemma metric_line_items (m : metric) :
  metric_line m
  = [Str (name m); Str " "; Str tab; Str " "; Float64 (mean m); Str newline].
Proof. reflexivity. Qed.

Lemma render_metric_line (fmt_float : float -> string) (m : metric) :
  render fmt_float (metric_line m)
  = name m +:+ " " +:+ tab +:+ " " +:+ fmt_float (mean m) +:+ newline.
Proof. cbn. rewrite append_nil_r. reflexivity. Qed.

Lemma metric_line_inj (m1 m2 : metric) :
  metric_line m1 = metric_line m2 -> name m1 = name m2.
Proof. rewrite !metric_line_items. by intros [= -> _]. Qed.

(** C8: a flush tick writes one line for each aggregate of the store, in
    some order, and leaves the store empty.  A line is the name, a space,
    a tab, a space, the mean and a newline: [fmt.Fprintln] puts a space
    between its operands.  The lines of a store keyed by the names are
    all different. *)
Theorem flush_tick_output (s s' : store) (out : list (list item)) :
  tick_collection s out s' ->
  s' = newStore
  /\ data s' = ∅
  /\ length out = size (data s)
  /\ out ≡ₚ (fun km => [Str (name km.2); Str " "; Str tab; Str " ";
                        Float64 (mean km.2); Str newline]) <$> map_to_list (data s)
  /\ (forall fmt_float line, line ∈ out ->
        exists k m, data s !! k = Some m /\
          render fmt_float line
          = name m +:+ " " +:+ tab +:+ " " +:+ fmt_float (mean m) +:+ newline)
  /\ ((forall k m, data s !! k = Some m -> name m = k) -> NoDup out).
Proof.
  destruct 1 as [ms Hms]. split_and!; try done.
  - rewrite length_fmap, Hms, length_fmap. apply length_map_to_list.
  - rewrite Hms, <- list_fmap_compose. reflexivity.
  - intros fmt_float line (m & -> & Hm)%list_elem_of_fmap.
    rewrite Hms in Hm. apply list_elem_of_fmap in Hm as ([k m'] & -> & Hkm).
    apply elem_of_map_to_list in Hkm. exists k, m'. split; [done|].
    apply render_metric_line.
  - intros Hkey. rewrite Hms, <- list_fmap_compose.
    apply (NoDup_fmap_2_strong _).
    + intros [k1 m1] [k2 m2] H1%elem_of_map_to_list H2%elem_of_map_to_list Heq.
      cbn in Heq. apply metric_line_inj in Heq.
      rewrite (Hkey _ _ H1), (Hkey _ _ H2) in Heq. subst k2.
      f_equal. congruence.
    + apply NoDup_map_to_list.
Qed.

End Flush.

(** ** More on the names, the store and the semaphore *)

Section MoreProperties.

Lemma forallb_Forall {A} (f : A -> bool) (l : list A) :
  forallb f l = true <-> Forall (fun x => f x = true) l.
Proof.
  induction l as [|x l IH]; cbn; [by split; [constructor|]|].
  rewrite andb_true_iff, Forall_cons, IH. reflexivity.
Qed.

(** X8: [validateName] accepts exactly the strings of at most 64 bytes
    whose bytes are all digits, ASCII letters or hyphens and whose first
    byte is not a hyphen; a string with any other byte, so any string that
    is not ASCII, is refused whatever its UTF-8 decoding. *)
Theorem validateName_iff (s : string) :
  validateName s = true <->
  len s <= 64
  /\ Forall (fun b => name_char b = true) (bytes s)
  /\ head (bytes s) <> Some hyphen.
Proof.
  rewrite validateName_bytes, !andb_true_iff, negb_true_iff, Z.ltb_ge, forallb_Forall.
  assert (first_not_hyphen 0 (bytes s) = true <-> head (bytes s) <> Some hyphen) as ->.
  { destruct (bytes s) as [|b t]; cbn; [done|].
    rewrite negb_true_iff. destruct (Z.eqb_spec b hyphen) as [->|Hne].
    - split; [discriminate|]. intros H. by destruct H.
    - split; [|done]. intros _ [= ?]. done. }
  tauto.
Qed.

Lemma fold_records_cons (s : store) (r : metric) (rs : list metric) :
  fold_records s (r :: rs) = fold_records (update s r).1 rs.
Proof. reflexivity. Qed.

(** The aggregate of a name after more records of that name. *)
Lemma fold_records_present (n : string) (rs : list metric) :
  forall (s : store) (a : metric),
    data s !! n = Some a ->
    Forall (fun x => name x = n) rs ->
    rs <> [] ->
    - 2 ^ 63 <= count a ->
    count a + Z.of_nat (length rs) < 2 ^ 63 ->
    data (fold_records s rs) !! n
    = Some {| name := n;
              value := float_sum (value a) (value <$> rs);
              mean := float_sum (value a) (value <$> rs)
                      / float64_of_int (count a + Z.of_nat (length rs));
              time := default (time a) (last (time <$> rs));
              count := count a + Z.of_nat (length rs) |}.
Proof.
  induction rs as [|r rs IH]; intros s a Ha Hn Hne Hlo Hhi; [done|].
  inversion Hn as [|? ? Hr Hrs]; subst. rewrite fold_records_cons.
  pose proof (update_lookup s r) as Hu. rewrite Ha in Hu.
  cbn [length] in Hhi. rewrite int_wrap_in_range in Hu by lia.
  destruct rs as [|r' rs'].
  - unfold fold_records. cbn [foldl]. rewrite Hu. reflexivity.
  - rewrite (IH _ _ Hu) by (try done; cbn [count length] in *; lia).
    cbn [name value time count].
    replace (count a + 1 + Z.of_nat (length (r' :: rs')))
      with (count a + Z.of_nat (length (r :: r' :: rs'))) by (cbn [length]; lia).
    cbn [fmap list_fmap last float_sum foldl]. rewrite !last_cons.
    destruct (last (time <$> rs')); reflexivity.
Qed.

(** The aggregate of a name after the first records of that name. *)
Lemma fold_records_absent (s : store) (r : metric) (rs : list metric) :
  data s !! name r = None ->
  count r = 1 ->
  mean r = value r ->
  Forall (fun x => name x = name r) rs ->
  1 + Z.of_nat (length rs) < 2 ^ 63 ->
  data (fold_records s (r :: rs)) !! name r
  = Some {| name := name r;
            value := float_sum (value r) (value <$> rs);
            mean := match rs with
                    | [] => value r
                    | _ => float_sum (value r) (value <$> rs)
                           / float64_of_int (1 + Z.of_nat (length rs))
                    end;
            time := default (time r) (last (time <$> rs));
            count := 1 + Z.of_nat (length rs) |}.
Proof.
  intros Hnone Hc Hm Hn Hlen. rewrite fold_records_cons.
  pose proof (update_lookup s r) as Hu. rewrite Hnone in Hu.
  destruct rs as [|r' rs'].
  - unfold fold_records. cbn [foldl]. rewrite Hu. destruct r; cbn in *; subst. reflexivity.
  - rewrite (fold_records_present (name r) (r' :: rs') _ r Hu Hn) by (try done; lia).
    rewrite Hc. reflexivity.
Qed.

(** X9: the records of one name that arrive in a store that holds none
    of that name give the aggregate whose sum is the binary64 sum of the
    values in their order, whose count is their number, whose mean is the
    quotient of the two (the value itself for one record), and whose
    timestamp is that of the last record. *)
Theorem fold_records_aggregate (s : store) (r : metric) (rs : list metric) :
  data s !! name r = None ->
  count r = 1 ->
  mean r = value r ->
  Forall (fun x => name x = name r) rs ->
  1 + Z.of_nat (length rs) < 2 ^ 63 ->
  data (fold_records s (r :: rs)) !! name r
  = Some {| name := name r;
            value := float_sum (value r) (value <$> rs);
            mean := match rs with
                    | [] => value r
                    | _ => float_sum (value r) (value <$> rs)
                           / float64_of_int (1 + Z.of_nat (length rs))
                    end;
            time := default (time r) (last (time <$> rs));
            count := 1 + Z.of_nat (length rs) |}
  /\ forall k, k <> name r -> data (fold_records s (r :: rs)) !! k = data s !! k.
Proof.
  intros Hnone Hc Hm Hn Hlen. split; [by apply fold_records_absent|].
  intros k Hk. assert (Forall (fun x => name x = name r) (r :: rs)) as Hall
    by (by constructor).
  clear -Hk Hall. revert s. induction Hall as [|x l Hx _ IH]; intros s; [done|].
  rewrite fold_records_cons, IH. apply update_lookup_ne. congruence.
Qed.

(** X10: a window owes nothing to the windows before it: whatever the
    store held when the flush tick came, the records of one name folded
    after the tick give the aggregate of these records alone. *)
Theorem window_starts_fresh (s s' : store) (out : list (list item))
    (r : metric) (rs : list metric) :
  tick_collection s out s' ->
  count r = 1 ->
  mean r = value r ->
  Forall (fun x => name x = name r) rs ->
  1 + Z.of_nat (length rs) < 2 ^ 63 ->
  data (fold_records s' (r :: rs)) !! name r
  = Some {| name := name r;
            value := float_sum (value r) (value <$> rs);
            mean := match rs with
                    | [] => value r
                    | _ => float_sum (value r) (value <$> rs)
                           / float64_of_int (1 + Z.of_nat (length rs))
                    end;
            time := default (time r) (last (time <$> rs));
            count := 1 + Z.of_nat (length rs) |}.
Proof.
  destruct 1. intros. by apply fold_records_absent.
Qed.

End MoreProperties.

Section SemaphoreProperties.

Import Admission.

Lemma failed_accepts_cons (a : action) (tr : list action) :
  failed_accepts (a :: tr)
  = (if decide (a = AcceptErr) then 1 else 0) + failed_accepts tr.
Proof.
  unfold failed_accepts. destruct (decide (a = AcceptErr)).
  - rewrite filter_cons_True by done. cbn [length]. lia.
  - rewrite filter_cons_False by done. lia.
Qed.

Lemma step_leak (a : action) (g g' : gate) :
  step a g = Some g' ->
  sem g' - handlers g' - accepting g'
  = sem g - handlers g - accepting g + (if decide (a = AcceptErr) then 1 else 0).
Proof.
  unfold step, Wait, Admission.Signal, P, V, chan_send, chan_recv, accepting.
  intros Hstep.
  destruct a, (pc g) eqn:Hpc; simplify_eq;
    repeat case_match; simplify_eq; cbn; try rewrite Hpc; lia.
Qed.

Lemma run_leak (tr : list action) :
  forall g g', run tr g = Some g' ->
  sem g' - handlers g' - accepting g'
  = sem g - handlers g - accepting g + failed_accepts tr.
Proof.
  induction tr as [|a tr IH]; intros g g' Hrun; cbn in Hrun.
  - simplify_eq. unfold failed_accepts. cbn. lia.
  - destruct (step a g) as [g1|] eqn:Hstep; [|done].
    rewrite (IH _ _ Hrun), (step_leak _ _ _ Hstep), failed_accepts_cons. lia.
Qed.

(** X11: the accept loop takes a slot before [Accept] and does not give
    it back when [Accept] fails: in every reachable state the values in
    the channel are the handlers running, the slot of a pending accept,
    and one for each failed accept so far.  So the handlers that can run
    are 10 less the failed accepts, and after ten failed accepts no step
    is possible any more. *)
Theorem failed_accept_keeps_slot (tr : list action) (g : gate) :
  run tr init = Some g ->
  sem g = handlers g + accepting g + failed_accepts tr
  /\ handlers g + failed_accepts tr <= capacity
  /\ (failed_accepts tr = capacity -> forall a, step a g = None).
Proof.
  intros Hrun. pose proof (run_leak tr _ _ Hrun) as Hleak. cbn in Hleak.
  pose proof (run_inv tr _ _ init_inv Hrun) as (Hh & Hs & Hc & _).
  fold (accepting g) in Hs.
  assert (0 <= accepting g) as Hacc by (unfold accepting; destruct (pc g); lia).
  split_and!; [lia|lia|].
  intros Hfail a.
  assert (handlers g = 0 /\ accepting g = 0 /\ sem g = capacity) as (H0 & Ha & Hfull)
    by lia.
  unfold accepting in Ha. destruct (pc g) eqn:Hpc; [|lia].
  unfold step, Wait, Admission.Signal, P, V, chan_send. rewrite Hpc, H0, Hfull.
  destruct a; reflexivity.
Qed.

(** X12: [P(k)] returns exactly when the channel has room for [k] more
    values and then holds [k] more; [V(k)] returns exactly when the
    channel holds at least [k] values and then holds [k] fewer; [V(k)]
    after [P(k)] leaves the channel as it was. *)
Theorem P_V_counts (k : nat) (cap n m : Z) :
  (P k cap n = Some m <-> m = n + Z.of_nat k /\ (k = 0%nat \/ n + Z.of_nat k <= cap))
  /\ (V k n = Some m <-> m = n - Z.of_nat k /\ (k = 0%nat \/ Z.of_nat k <= n))
  /\ (0 <= n -> P k cap n = Some m -> V k m = Some n).
Proof.
  assert (forall k n m, P k cap n = Some m <->
            m = n + Z.of_nat k /\ (k = 0%nat \/ n + Z.of_nat k <= cap)) as HP.
  { clear. induction k as [|k IH]; intros n m; cbn [P].
    - split; [intros [= ->]; split; [lia|by left]|intros [-> _]; f_equal; lia].
    - unfold chan_send. destruct (Z.ltb_spec n cap).
      + rewrite IH. split; intros [-> H']; (split; [lia|right; destruct H'; lia]).
      + split; [done|]. intros [_ [?|?]]; [done|lia]. }
  assert (forall k n m, V k n = Some m <->
            m = n - Z.of_nat k /\ (k = 0%nat \/ Z.of_nat k <= n)) as HV.
  { clear. induction k as [|k IH]; intros n m; cbn [V].
    - split; [intros [= ->]; split; [lia|by left]|intros [-> _]; f_equal; lia].
    - unfold chan_recv. destruct (Z.ltb_spec 0 n).
      + rewrite IH. split; intros [-> H']; (split; [lia|right; destruct H'; lia]).
      + split; [done|]. intros [_ [?|?]]; [done|lia]. }
  split_and!; [apply HP|apply HV|].
  intros Hn [-> Hk]%HP. apply HV. split; [lia|]. destruct Hk; [by left|right; lia].
Qed.

End SemaphoreProperties.

Section TrimProperties.

(** X13: what [Trim] returns neither starts nor ends with a byte of the
    cutset, it is the input without a run of such bytes at each end, and
    trimming it again changes nothing. *)
Theorem Trim_clean (s cutset : string) :
  head_in_cutset (Trim s cutset) cutset = false
  /\ last_in_cutset (Trim s cutset) cutset = false
  /\ Trim (Trim s cutset) cutset = Trim s cutset
  /\ exists pre suf,
       s = pre +:+ Trim s cutset +:+ suf /\
       all_in_cutset pre cutset = true /\ all_in_cutset suf cutset = true.
Proof.
  destruct (Trim_decompose cutset s) as (pre & suf & Hs & Hpre & Hsuf & Hh & Hl).
  split_and!; [done|done| |by exists pre, suf].
  rewrite <- (append_nil_r (Trim s cutset)) at 1.
  rewrite <- (append_nil (Trim s cutset +:+ EmptyString)).
  by apply Trim_both_ends.
Qed.

End TrimProperties.


(** ** The validators of the test file *)

Section TestFile.

Import Regexp.

Lemma void_nullable (r : regexp) : void r = true -> nullable r = false.
Proof.
  induction r; cbn; try done.
  - intros H. by rewrite IHr1.
  - intros [H1 H2]%andb_true_iff. by rewrite IHr1, IHr2.
Qed.

Lemma void_deriv (x : Z) (r : regexp) : void r = true -> void (deriv x r) = true.
Proof.
  induction r; cbn; try done.
  - intros H. rewrite IHr1, (void_nullable r1) by done. reflexivity.
  - intros [H1 H2]%andb_true_iff. by rewrite IHr1, IHr2.
Qed.

Lemma void_match_prefix (l : list Z) :
  forall r, void r = true -> match_prefix r l = false.
Proof.
  induction l as [|x l IH]; intros r Hr; cbn; rewrite (void_nullable r Hr); [done|].
  apply IH, void_deriv, Hr.
Qed.

Lemma in_class_alnum (x : Z) :
  in_class x [(48, 57); (97, 122); (65, 90)] = alnum x.
Proof.
  unfold in_class, alnum, is_digit, is_upper, is_lower. cbn.
  rewrite orb_false_r. 
  destruct ((48 <=? x) && (x <=? 57)), ((97 <=? x) && (x <=? 122)),
    ((65 <=? x) && (x <=? 90)); reflexivity.
Qed.

(** The pattern matches a prefix exactly when the first rune is
    alphanumeric. *)
Lemma match_prefix_name_pattern (l : list Z) :
  match_prefix name_pattern l = match l with [] => false | x :: _ => alnum x end.
Proof.
  destruct l as [|x l]; [reflexivity|].
  unfold name_pattern. cbn [match_prefix nullable andb orb deriv].
  rewrite in_class_alnum. destruct (alnum x).
  - destruct l; reflexivity.
  - apply void_match_prefix. reflexivity.
Qed.

Lemma match_anywhere_name_pattern (l : list Z) :
  match_anywhere name_pattern l = existsb alnum l.
Proof.
  induction l as [|x l IH]; [reflexivity|].
  cbn [match_anywhere existsb]. rewrite match_prefix_name_pattern, IH. reflexivity.
Qed.

Lemma existsb_Exists {A} (f : A -> bool) (l : list A) :
  existsb f l = true <-> Exists (fun x => f x = true) l.
Proof.
  induction l as [|x l IH]; cbn.
  - split; [done|]. by inversion 1.
  - rewrite orb_true_iff, Exists_cons, IH. reflexivity.
Qed.

(** X14: the regexp of [validateRegex] is not anchored: [validateRegex]
    accepts exactly the strings of at most 64 bytes that hold an
    alphanumeric character somewhere.  So it accepts every non-empty
    string that [validateRune] accepts, and others that [validateRune]
    refuses, such as a name that starts with a hyphen. *)
Theorem validateRegex_iff (s : string) :
  (validateRegex s = true <->
   len s <= 64 /\ Exists (fun r => alnum r = true) (runes s))
  /\ (validateRune s = true -> s <> EmptyString -> validateRegex s = true)
  /\ validateRune "-asdf" = false /\ validateRegex "-asdf" = true.
Proof.
  assert (validateRegex s = true <->
          len s <= 64 /\ Exists (fun r => alnum r = true) (runes s)) as Hiff.
  { unfold validateRegex, MatchString. rewrite match_anywhere_name_pattern.
    destruct (Z.ltb_spec 64 (len s)).
    - split; [done|]. intros [? _]. lia.
    - rewrite existsb_Exists. split; [intros ?; split; [lia|done]|by intros [_ ?]]. }
  split_and!; [exact Hiff| |reflexivity|reflexivity].
  intros Hrune Hne. apply Hiff.
  change (validateRune s) with (validateName s) in Hrune.
  rewrite validateName_bytes, !andb_true_iff, negb_true_iff, Z.ltb_ge in Hrune.
  destruct Hrune as [[Hlen Hfirst] Hall]. split; [done|].
  unfold runes, range_string. rewrite (runes_of_name_chars _ 0 Hall).
  destruct s as [|c t]; [done|]. cbn [bytes] in *. apply Exists_cons_hd.
  cbn [forallb] in Hall. apply andb_true_iff in Hall as [Hc _].
  rewrite (hyphen_not_alnum _ Hc). cbn in Hfirst. exact Hfirst.
Qed.

(** X15: on the table of the test file [TestRune] reports nothing, and
    [TestRegex] reports the four cases that hold an alphanumeric
    character and are expected to fail. *)
Theorem test_results :
  TestRune = []
  /\ TestRegex = [ ("-asdf-asdf", true, false); ("asdf asdf", true, false);
                   ("-asdf", true, false); ("!asdf", true, false) ].
Proof. split; vm_compute; reflexivity. Qed.

End TestFile.

(** ** The earlier variant *)

Section EarlierVariant.

Lemma update_read_name (s : store) (m : metric) :
  name (Earlier.update_read s m) = name m.
Proof. unfold Earlier.update_read. by destruct (data s !! name m). Qed.

(** X16: the two critical sections of the earlier [update] compute what
    [update] computes when nothing comes between them.  When two handlers
    have both read before either writes, records of different names are
    both folded, but of two records of one name the first written is
    lost: the store is as if the second alone had been folded. *)
Theorem earlier_update_interleaved (s : store) (r1 r2 : metric) :
  Earlier.update s r1 = update s r1
  /\ (name r1 = name r2 ->
      Earlier.update_write
        (Earlier.update_write s (Earlier.update_read s r1))
        (Earlier.update_read s r2)
      = (update s r2).1)
  /\ (name r1 <> name r2 ->
      Earlier.update_write
        (Earlier.update_write s (Earlier.update_read s r1))
        (Earlier.update_read s r2)
      = (update (update s r1).1 r2).1).
Proof.
  split_and!.
  - unfold Earlier.update, Earlier.update_write, update.
    rewrite update_read_name. reflexivity.
  - intros Hn. unfold Earlier.update_write, update. cbn [data fst].
    rewrite !update_read_name, Hn, insert_insert_eq. reflexivity.
  - intros Hn. unfold Earlier.update_write, update. cbn [data fst].
    rewrite !update_read_name. rewrite lookup_insert_ne by done. reflexivity.
Qed.

(** X17: the earlier handler has no upper bound on the timestamp.  It
    ends on the turns on which the later handler ends, it gives to the
    store every record the later handler hands off, and the records the
    later handler drops it either drops too or stores, and these are the
    records stamped after the clock. *)
Theorem earlier_window (atof_number : string -> option float)
    (time_Parse : string -> string -> option instant) (t : turn) :
  let parse := parseMetric atof_number time_Parse in
  let later := conn_turn atof_number time_Parse t in
  let earlier := Earlier.conn_turn parse t in
  (forall msg, later = Terminated msg <-> earlier = Terminated msg)
  /\ (forall m, later = HandedOff m -> earlier = HandedOff m)
  /\ (forall m, earlier = HandedOff m <->
        read_err t <> Some EOF /\
        Trim (read_bytes t) crlf <> EmptyString /\
        parse (Trim (read_bytes t) crlf) = Ok m /\
        now_lower t - 60 * Second <= time m)
  /\ (later = Dropped ->
      earlier = Dropped \/
      exists m, earlier = HandedOff m /\ now_upper t < time m).
Proof.
  intros parse later earlier. subst parse later earlier.
  unfold conn_turn, Earlier.conn_turn, outside_window, Earlier.outside_window,
    Before, After, UTC, Add.
  destruct (read_err t) as [[]|];
    destruct (Trim (read_bytes t) crlf) as [|c l];
    try destruct (parseMetric atof_number time_Parse (String c l)) as [m0|e];
    try destruct (Z.ltb_spec (time m0) (now_lower t + -60 * Second));
    try destruct (Z.ltb_spec (now_upper t) (time m0));
    cbn [orb]; split_and!; intros; try done;
    try (split; intros; destruct_and?; simplify_eq; try done; try lia;
         split_and?; try done; lia);
    try (by left); try (right; eexists; split; [reflexivity|lia]).
Qed.

End EarlierVariant.


(** ** The properties on the examples *)

Section OnExamples.

Import Examples.

Local Abbreviation parse := (parseMetric atof_number time_Parse).
Local Abbreviation turn_result := (conn_turn atof_number time_Parse).
Local Abbreviation handler := (connHandler atof_number time_Parse).

Lemma cpu_line_parses : parse cpu_line = Ok cpu.
Proof. vm_compute. reflexivity. Qed.

Lemma cpu_turn_trim (err : option read_error) (now : instant) :
  Trim (read_bytes (cpu_turn err now)) crlf = cpu_line.
Proof. vm_compute. reflexivity. Qed.

(** C2: the empty string passes [validateName], although it has no first
    alphanumeric character; on every other string [validateName] decides
    what is asked of a name (lemma [validateName_nonempty]).  A line whose
    name field is empty is parsed to a record with the empty name. *)
Theorem validateName_accepts_empty_name :
  validateName "" = true
  /\ spec_isValidName "" = false
  /\ parse nameless_line = Ok nameless.
Proof. split_and!; vm_compute; reflexivity. Qed.

(** C6: one record is received and folded, the raw tick loads the
    counter (and reports 0), the handler adds one, the raw tick stores
    zero: the record is in the store, in no report, and the counter is
    back to 0. *)
Theorem raw_count_increment_lost :
  exists s, reachable atof_number time_Parse s /\
            handed_off s = 1 /\ unadded s = 0 /\ resetting s = false /\
            rawCount s = 0 /\ stderr s = [0] /\
            data (sys_store s) !! "cpu" = Some cpu.
Proof.
  apply (increment_lost atof_number time_Parse (cpu_turn None cpu_time) cpu).
  vm_compute. reflexivity.
Qed.

(** C7: a read that fails otherwise than by the end of the stream, and
    that returns the bytes of a record, does not end the handler: the
    record is parsed, sent to the scheduler and counted, and the handler
    reads on.  The end of the stream does end it. *)
Theorem read_failure_not_teardown :
  turn_result (cut_turn ReadFailure cpu_time) = HandedOff cpu
  /\ handler [cut_turn ReadFailure cpu_time]
     = ([Send cpu; AddRawCount], Reading)
  /\ handler [cut_turn EOF cpu_time]
     = ([Log "client terminated: EOF"; ConnClose; Signal], Returned).
Proof. split_and!; vm_compute; reflexivity. Qed.

(** The line of the flush for [cpu] is not the name, a tab and the mean:
    whatever the text of the mean, its fourth byte is a space. *)
Lemma flush_line_not_wire_format :
  tick_collection cpu_store
    [[Str "cpu"; Str " "; Str tab; Str " "; Float64 42.5; Str newline]] newStore
  /\ forall fmt_float,
       render fmt_float
         [Str "cpu"; Str " "; Str tab; Str " "; Float64 42.5; Str newline]
       <> "cpu" +:+ tab +:+ fmt_float 42.5%float +:+ newline.
Proof.
  split.
  - apply (TickCollection cpu_store [cpu]).
    unfold cpu_store. cbn [data]. rewrite map_to_list_singleton. reflexivity.
  - intros fmt_float. cbn. rewrite append_nil_r.
    rewrite !append_cons, !append_nil. intros [= H].
Qed.

(** *** Instances *)

Lemma update_folds_witness :
  (update newStore cpu).2 = None
  /\ data (update newStore cpu).1 !! "cpu" = Some cpu
  /\ data (update (update newStore cpu).1 cpu).1 !! "cpu"
     = Some {| name := "cpu"; value := 85; mean := 42.5;
               time := cpu_time; count := 2 |}.
Proof.
  split_and!.
  - exact (proj1 (update_folds newStore cpu)).
  - exact (proj1 (proj2 (proj2 (update_folds newStore cpu)))
             (lookup_empty _) eq_refl eq_refl).
  - refine (proj1 (proj2 (update_folds (update newStore cpu).1 cpu)) cpu _ _).
    + apply update_lookup.
    + cbn. lia.
Defined.

Lemma window_filter_witness :
  (* the timestamp is the instant of the test *)
  turn_result (cpu_turn None cpu_time) = HandedOff cpu
  (* the timestamp is 60 seconds old *)
  /\ turn_result (cpu_turn None (cpu_time + 60 * Second)) = HandedOff cpu
  (* older by one nanosecond more *)
  /\ turn_result (cpu_turn None (cpu_time + 60 * Second + 1)) = Dropped
  (* one nanosecond ahead of the clock *)
  /\ turn_result (cpu_turn None (cpu_time - 1)) = Dropped.
Proof.
  assert (forall now, read_err (cpu_turn None now) <> Some EOF) as Herr by done.
  assert (cpu_line <> EmptyString) as Hne by done.
  pose (W := fun now =>
    window_filter atof_number time_Parse (cpu_turn None now) cpu_line cpu now []
      (Herr now) (cpu_turn_trim None now) Hne cpu_line_parses eq_refl eq_refl).
  split_and!.
  - apply (proj1 (W cpu_time)). unfold cpu, cpu_time, Second; cbn [time]; lia.
  - apply (proj1 (W (cpu_time + 60 * Second))). unfold cpu, cpu_time, Second; cbn [time]; lia.
  - apply (proj2 (proj2 (W (cpu_time + 60 * Second + 1)))). unfold cpu, cpu_time, Second; cbn [time]; lia.
  - apply (proj2 (proj2 (W (cpu_time - 1)))). unfold cpu, cpu_time, Second; cbn [time]; lia.
Defined.

Lemma connHandler_trims_both_ends_witness :
  Trim (String char_cr (String char_cr cpu_line) +:+ String char_cr newline) crlf
  = cpu_line
  /\ turn_result {| read_bytes := String char_cr newline; read_err := None;
                    now_lower := cpu_time; now_upper := cpu_time |}
     = Terminated "client terminated: Empty input".
Proof.
  split.
  - refine (proj1 (connHandler_trims_both_ends atof_number time_Parse
      (String char_cr (String char_cr EmptyString)) cpu_line (String char_cr newline)
      {| read_bytes := String char_cr (String char_cr cpu_line) +:+ String char_cr newline;
         read_err := None; now_lower := cpu_time; now_upper := cpu_time |}
      [] _ _ _ _ _ _)); try reflexivity. discriminate.
  - refine (proj1 (proj1 (proj2 (connHandler_trims_both_ends atof_number time_Parse
      EmptyString EmptyString (String char_cr newline)
      {| read_bytes := String char_cr newline;
         read_err := None; now_lower := cpu_time; now_upper := cpu_time |}
      [] _ _ _ _ _ _)) eq_refl)); try reflexivity. discriminate.
Defined.

Lemma at_most_capacity_active_witness :
  Admission.run Admission.fill Admission.init = Some Admission.full
  /\ Admission.handlers Admission.full = 10
  /\ Admission.step Admission.MainWait Admission.full = None.
Proof.
  assert (Admission.run Admission.fill Admission.init = Some Admission.full) as Hrun
    by (vm_compute; reflexivity).
  split; [exact Hrun|]. split; [reflexivity|].
  refine (proj1 (proj2 (proj2 (proj2 (proj2
    (at_most_capacity_active Admission.fill Admission.full Hrun)))) eq_refl)).
Defined.

Lemma flush_tick_output_witness :
  length [metric_line cpu] = size (data cpu_store).
Proof.
  refine (proj1 (proj2 (proj2 (flush_tick_output cpu_store newStore _ _)))).
  apply (TickCollection cpu_store [cpu]).
  unfold cpu_store. cbn [data]. rewrite map_to_list_singleton. reflexivity.
Defined.

(** *** Instances of the further properties *)

Lemma cpu_handed_off : turn_result (cpu_turn None cpu_time) = HandedOff cpu.
Proof. vm_compute. reflexivity. Qed.

Lemma cpu_received :
  reachable atof_number time_Parse (after_ingress sys_init cpu).
Proof.
  apply rtc_once. apply (step_ingress _ _ _ (cpu_turn None cpu_time)); [done|].
  exact cpu_handed_off.
Qed.

Lemma handed_off_record_witness :
  validateName (name cpu) = true
  /\ count cpu = 1 /\ mean cpu = value cpu
  /\ cpu_time - 60 * Second <= time cpu <= cpu_time
  /\ read_err (cpu_turn None cpu_time) <> Some EOF.
Proof.
  exact (handed_off_record atof_number time_Parse
           (cpu_turn None cpu_time) cpu cpu_handed_off).
Defined.

Lemma records_accounted_in_store_witness :
  total_count (data (sys_store (after_ingress sys_init cpu)))
  + drained (after_ingress sys_init cpu)
  = handed_off (after_ingress sys_init cpu).
Proof.
  refine (proj2 (records_accounted_in_store atof_number time_Parse
                   (after_ingress sys_init cpu) cpu_received _)).
  cbn. lia.
Defined.

Lemma raw_reports_never_exceed_witness :
  sum_Z (stderr (after_ingress sys_init cpu)) <= handed_off (after_ingress sys_init cpu).
Proof.
  refine (proj1 (raw_reports_never_exceed atof_number time_Parse
                   (after_ingress sys_init cpu) cpu_received _)).
  cbn. lia.
Defined.

Lemma fold_records_aggregate_witness :
  data (fold_records newStore [cpu; cpu; cpu]) !! "cpu"
  = Some {| name := "cpu"; value := 127.5; mean := 42.5;
            time := cpu_time; count := 3 |}.
Proof.
  refine (proj1 (fold_records_aggregate newStore cpu [cpu; cpu]
                   (lookup_empty _) eq_refl eq_refl _ _)).
  - repeat constructor.
  - cbn. lia.
Defined.

Lemma window_starts_fresh_witness :
  data (fold_records newStore [cpu; cpu]) !! "cpu"
  = Some {| name := "cpu"; value := 85; mean := 42.5;
            time := cpu_time; count := 2 |}.
Proof.
  refine (window_starts_fresh cpu_store newStore [metric_line cpu] cpu [cpu]
            _ eq_refl eq_refl _ _).
  - apply (TickCollection cpu_store [cpu]).
    unfold cpu_store. cbn [data]. rewrite map_to_list_singleton. reflexivity.
  - repeat constructor.
  - cbn. lia.
Defined.

Lemma failed_accept_keeps_slot_witness :
  Admission.run Admission.refuse Admission.init = Some Admission.jammed
  /\ Admission.step Admission.MainWait Admission.jammed = None
  /\ Admission.step Admission.HandlerReturn Admission.jammed = None.
Proof.
  assert (Admission.run Admission.refuse Admission.init = Some Admission.jammed)
    as Hrun by (vm_compute; reflexivity).
  pose proof (proj2 (proj2 (failed_accept_keeps_slot Admission.refuse
                              Admission.jammed Hrun)) eq_refl) as Hstuck.
  split_and!; [exact Hrun|apply Hstuck|apply Hstuck].
Defined.


End OnExamples.
